(** * Relationship extraction over text nodes (vectorize_and_analyze.py)

    A shallow embedding of [src/vectorize_and_analyze.py] and the proofs of
    its specification.

    Modelling choices.
    - A node is a Python dict read from JSON: a finite map from field names
      to values ([gmap string pyval]).  Values are [None], booleans,
      integers and strings; JSON floats, arrays and objects are left out.
    - A Python [str] is a [string]: a sequence of 8-bit characters.
      [str.lower] changes the letters 'A'..'Z'; the causal phrases are
      ASCII, so how other characters are lowered does not change a match.
    - Exceptions are explicit: fallible code returns a [result].
    - The sentence encoder, the TF-IDF vectorizer, the cosine similarity and
      the NLTK stopword list are external: they are the fields of the
      [Collaborators] class.  Numbers (similarities, term weights) are an
      abstract type with the two tests the code makes on them ([>] and
      [!= 0]); [float(sim)] is value preserving and is the identity here.
    - The two thresholds are arguments of the engine; their default values
      [0.8] and [0.2] are numbers of the abstract type and are not fixed here.
    - The sparse TF-IDF matrix is given by its dense rows.
    - Iterating over a Python set of strings has no specified order; the
      order used by [list(common_keywords)] is a [set_listing]. *)

From stdpp Require Import base option list strings gmap sets pretty sorting.
From Stdlib Require Import ZArith Lia Ascii.

(** ** Python values and exceptions *)

Inductive pyval :=
  | PyNone
  | PyBool (b : bool)
  | PyInt (z : Z)
  | PyStr (s : string).

Inductive exn :=
  | AttributeError
  | TypeError
  | IndexError
  | KeyError
  | ExternalError.

Inductive result (A : Type) :=
  | Ok (a : A)
  | Raise (e : exn).
Arguments Ok {A} a.
Arguments Raise {A} e.

#[global] Instance result_bind : MBind result := λ A B k m,
  match m with
  | Ok a => k a
  | Raise e => Raise e
  end.

(** [bool(v)] *)
Definition truthy (v : pyval) : bool :=
  match v with
  | PyNone => false
  | PyBool b => b
  | PyInt z => negb (z =? 0)%Z
  | PyStr s => negb (String.eqb s "")
  end.

(** [str(v)] *)
Definition str (v : pyval) : string :=
  match v with
  | PyNone => "None"
  | PyBool true => "True"
  | PyBool false => "False"
  | PyInt z => pretty z
  | PyStr s => s
  end.

(** [d.get(k)]: the value, or [None] when the key is missing. *)
Definition dict_get (d : gmap string pyval) (k : string) : pyval :=
  default PyNone (d !! k).

(** [d[k]] *)
Definition dict_getitem (d : gmap string pyval) (k : string) : result pyval :=
  match d !! k with
  | Some v => Ok v
  | None => Raise KeyError
  end.

(** [l[i]] for an index [i >= 0] *)
Definition getitem {A} (l : list A) (i : nat) : result A :=
  match l !! i with
  | Some x => Ok x
  | None => Raise IndexError
  end.

(** [range(a, b)] *)
Definition range (a b : nat) : list nat := seq a (b - a).

(** [enumerate(l)] *)
Definition enumerate {A} (l : list A) : list (nat * A) := imap (λ i x, (i, x)) l.

(** A [for] loop whose body updates the loop state or raises. *)
Fixpoint for_each {A S} (xs : list A) (body : A → S → result S) (s : S) : result S :=
  match xs with
  | [] => Ok s
  | x :: rest => s' ← body x s; for_each rest body s'
  end.

(** ** Text *)

Definition is_upper (c : ascii) : bool :=
  let n := nat_of_ascii c in (65 <=? n) && (n <=? 90).

Definition lower_char (c : ascii) : ascii :=
  if is_upper c then ascii_of_nat (nat_of_ascii c + 32) else c.

(** [s.lower()] *)
Fixpoint lower (s : string) : string :=
  match s with
  | EmptyString => EmptyString
  | String c rest => String (lower_char c) (lower rest)
  end.

Fixpoint starts_with (p s : string) : bool :=
  match p, s with
  | EmptyString, _ => true
  | String a p', String b s' => Ascii.eqb a b && starts_with p' s'
  | String _ _, EmptyString => false
  end.

(** [p in s] on strings *)
Fixpoint contains (p s : string) : bool :=
  starts_with p s ||
  match s with
  | EmptyString => false
  | String _ rest => contains p rest
  end.

(** ** Regular expressions

    The two heading patterns use character classes, concatenation and [+].
    [re_match] is [pattern.match]: it succeeds when some prefix of the
    subject is in the language of the pattern. *)

Inductive regex :=
  | Void
  | Eps
  | Class (p : ascii → bool)
  | Cat (r1 r2 : regex)
  | Alt (r1 r2 : regex)
  | Star (r : regex).

Definition Plus (r : regex) : regex := Cat r (Star r).

Fixpoint nullable (r : regex) : bool :=
  match r with
  | Void => false
  | Eps => true
  | Class _ => false
  | Cat r1 r2 => nullable r1 && nullable r2
  | Alt r1 r2 => nullable r1 || nullable r2
  | Star _ => true
  end.

Fixpoint deriv (c : ascii) (r : regex) : regex :=
  match r with
  | Void => Void
  | Eps => Void
  | Class p => if p c then Eps else Void
  | Cat r1 r2 =>
      if nullable r1 then Alt (Cat (deriv c r1) r2) (deriv c r2)
      else Cat (deriv c r1) r2
  | Alt r1 r2 => Alt (deriv c r1) (deriv c r2)
  | Star r1 => Cat (deriv c r1) (Star r1)
  end.

Fixpoint re_match (r : regex) (s : string) : bool :=
  nullable r ||
  match s with
  | EmptyString => false
  | String c rest => re_match (deriv c r) rest
  end.

(** [\d] *)
Definition is_digit (c : ascii) : bool :=
  let n := nat_of_ascii c in (48 <=? n) && (n <=? 57).

(** [[A-Za-z]] *)
Definition is_letter (c : ascii) : bool :=
  let n := nat_of_ascii c in
  ((65 <=? n) && (n <=? 90)) || ((97 <=? n) && (n <=? 122)).

(** [\s]: the characters below 256 for which [str.isspace] holds. *)
Definition is_space (c : ascii) : bool :=
  let n := nat_of_ascii c in
  ((9 <=? n) && (n <=? 13)) || ((28 <=? n) && (n <=? 32)) ||
  (n =? 133) || (n =? 160).

(** [\.] *)
Definition is_period (c : ascii) : bool := Ascii.eqb c "."%char.

(** [.] without DOTALL: any character but the newline *)
Definition is_not_newline (c : ascii) : bool := negb (nat_of_ascii c =? 10).

(** [^\d+\.\s+.+] *)
Definition numbered_heading : regex :=
  Cat (Plus (Class is_digit))
    (Cat (Class is_period) (Cat (Plus (Class is_space)) (Plus (Class is_not_newline)))).

(** [^[A-Za-z]+\.\s+.+] *)
Definition lettered_heading : regex :=
  Cat (Plus (Class is_letter))
    (Cat (Class is_period) (Cat (Plus (Class is_space)) (Plus (Class is_not_newline)))).

(** [pattern.match(v)]: a [TypeError] when the subject is not a string *)
Definition py_match (pattern : regex) (v : pyval) : result bool :=
  match v with
  | PyStr s => Ok (re_match pattern s)
  | _ => Raise TypeError
  end.

(** [v.lower()]: an [AttributeError] when [v] is not a string *)
Definition py_lower (v : pyval) : result string :=
  match v with
  | PyStr s => Ok (lower s)
  | _ => Raise AttributeError
  end.

(** ** Pattern detectors *)

Record CausalMatch := {
  cm_id : string;
  cm_phrase : string;
  cm_context : pyval
}.

Record HierarchicalMatch := {
  hm_id : string;
  hm_heading : pyval
}.

Definition causal_phrases : list string :=
  [ "because"; "due to"; "as a result"; "therefore"; "thus"; "consequently";
    "hence"; "so that"; "caused by"; "resulted in"; "leading to"; "since" ].

Definition heading_patterns : list regex := [ numbered_heading; lettered_heading ].

(** The body of the inner loop of [detect_causal_relationships]. *)
Definition causal_step (idx : nat) (content : pyval) (phrase : string)
    (causal_pairs : list CausalMatch) : result (list CausalMatch) :=
  low ← py_lower content;
  if contains phrase low then
    Ok (causal_pairs ++
        [ {| cm_id := str (PyInt (Z.of_nat idx)); cm_phrase := phrase; cm_context := content |} ])
  else Ok causal_pairs.

Definition detect_causal_relationships (contents : list pyval)
    : result (list CausalMatch) :=
  for_each (enumerate contents)
    (λ (item : nat * pyval) (causal_pairs : list CausalMatch),
       let '(idx, content) := item in
       for_each causal_phrases (causal_step idx content) causal_pairs)
    [].

(** The body of the inner loop of [detect_hierarchical_relationships]. *)
Definition hierarchical_step (idx : nat) (content : pyval) (pattern : regex)
    (hierarchical_pairs : list HierarchicalMatch) : result (list HierarchicalMatch) :=
  m ← py_match pattern content;
  if (m : bool) then
    Ok (hierarchical_pairs ++ [ {| hm_id := str (PyInt (Z.of_nat idx)); hm_heading := content |} ])
  else Ok hierarchical_pairs.

Definition detect_hierarchical_relationships (contents : list pyval)
    : result (list HierarchicalMatch) :=
  for_each (enumerate contents)
    (λ (item : nat * pyval) (hierarchical_pairs : list HierarchicalMatch),
       let '(idx, content) := item in
       for_each heading_patterns (hierarchical_step idx content) hierarchical_pairs)
    [].

(** ** External collaborators *)

Class Collaborators := {
  (** similarities and term weights *)
  num : Type;
  (** [a > b] *)
  gt : num → num → bool;
  (** [a != 0] *)
  nonzero : num → bool;
  (** a dense sentence vector *)
  embedding : Type;
  (** [SentenceTransformer(..).encode] *)
  encode : list pyval → result (list embedding);
  (** [TfidfVectorizer(stop_words=stop_words).fit_transform] together with
      [get_feature_names_out]: the rows of the term-weight matrix and the
      vocabulary *)
  fit_transform : list pyval → result (list (list num) * list string);
  (** [cosine_similarity([a], [b])[0][0]] *)
  cosine_similarity : embedding → embedding → result num;
  (** [list(set(stopwords.words('english')))] *)
  stop_words : list string
}.

(** The order in which [list(s)] enumerates a set of strings. *)
Record set_listing := {
  listing :> gset string → list string;
  listing_perm : ∀ X, listing X ≡ₚ elements X
}.

Definition canonical_listing : set_listing :=
  {| listing := elements; listing_perm := λ X, reflexivity (elements X) |}.

Definition reversed_listing : set_listing :=
  {| listing := λ X, reverse (elements X);
     listing_perm := λ X, reverse_Permutation (elements X) |}.

Record KeywordPair := {
  kp_start_id : string;
  kp_end_id : string;
  kp_keywords : list string
}.

(** [map] with a function that can raise *)
Fixpoint map_result {A B} (f : A → result B) (l : list A) : result (list B) :=
  match l with
  | [] => Ok []
  | x :: rest => y ← f x; ys ← map_result f rest; Ok (y :: ys)
  end.

(** [node.get('content') and node.get('id')] as a condition *)
Definition is_valid (node : gmap string pyval) : bool :=
  truthy (dict_get node "content") && truthy (dict_get node "id").

Section Engine.
Context {collab : Collaborators}.

Record SimilarityPair := {
  sp_start_id : string;
  sp_end_id : string;
  sp_similarity : num
}.

(** [row.nonzero()[1]]: the columns whose weight is not zero *)
Definition nonzero_columns (row : list num) : list nat :=
  fst <$> filter (λ kw : nat * num, nonzero kw.2) (enumerate row).

(** [tfidf_matrix[i, k]] *)
Definition getitem2 (tfidf_matrix : list (list num)) (i k : nat) : result num :=
  row ← getitem tfidf_matrix i; getitem row k.

(** [str(valid_nodes[i]['id'])] *)
Definition node_id (valid_nodes : list (gmap string pyval)) (i : nat) : result string :=
  node ← getitem valid_nodes i;
  v ← dict_getitem node "id";
  Ok (str v).

(** The body of the similarity loop, for the pair [(i, j)]. *)
Definition similar_step (valid_nodes : list (gmap string pyval))
    (embeddings : list embedding) (threshold : num) (i j : nat)
    (similar_pairs : list SimilarityPair) : result (list SimilarityPair) :=
  ei ← getitem embeddings i;
  ej ← getitem embeddings j;
  sim ← cosine_similarity ei ej;
  if gt sim threshold then
    start_id ← node_id valid_nodes i;
    end_id ← node_id valid_nodes j;
    Ok (similar_pairs ++
        [ {| sp_start_id := start_id; sp_end_id := end_id; sp_similarity := sim |} ])
  else Ok similar_pairs.

(** One element of the set comprehension over the common columns: the
    condition is evaluated left to right, and the term [keywords[k]] is
    added when it holds. *)
Definition keyword_step (tfidf_matrix : list (list num)) (keywords : list string)
    (keyword_threshold : num) (i j k : nat) (acc : gset string) : result (gset string) :=
  wi ← getitem2 tfidf_matrix i k;
  if gt wi keyword_threshold then
    wj ← getitem2 tfidf_matrix j k;
    if gt wj keyword_threshold then
      term ← getitem keywords k;
      if bool_decide (term ∈ stop_words) then Ok acc else Ok ({[ term ]} ∪ acc)
    else Ok acc
  else Ok acc.

(** The body of the keyword loop, for the pair [(i, j)]. *)
Definition keyword_pair_step (order : set_listing)
    (valid_nodes : list (gmap string pyval))
    (tfidf_matrix : list (list num)) (keywords : list string)
    (keyword_threshold : num) (i j : nat)
    (keyword_pairs : list KeywordPair) : result (list KeywordPair) :=
  row_i ← getitem tfidf_matrix i;
  row_j ← getitem tfidf_matrix j;
  let common : gset nat :=
    list_to_set (nonzero_columns row_i) ∩ list_to_set (nonzero_columns row_j) in
  common_keywords ←
    for_each (elements common)
      (keyword_step tfidf_matrix keywords keyword_threshold i j) (∅ : gset string);
  if bool_decide (common_keywords ≠ ∅) then
    start_id ← node_id valid_nodes i;
    end_id ← node_id valid_nodes j;
    Ok (keyword_pairs ++
        [ {| kp_start_id := start_id; kp_end_id := end_id;
             kp_keywords := order common_keywords |} ])
  else Ok keyword_pairs.

(** The nested loops [for i in range(n): for j in range(i + 1, n): ...]. *)
Definition for_each_pair {S} (n : nat) (body : nat → nat → S → result S) (s : S)
    : result S :=
  for_each (range 0 n) (λ i s', for_each (range (i + 1) n) (body i) s') s.

(** [valid_nodes = [node for node in nodes if ...]] *)
Definition filter_nodes (nodes : list (gmap string pyval)) : list (gmap string pyval) :=
  filter (λ node, is_valid node) nodes.

Definition vectorize_and_find_similar (order : set_listing)
    (nodes : list (gmap string pyval)) (threshold keyword_threshold : num)
    : result (list SimilarityPair * list KeywordPair *
              list CausalMatch * list HierarchicalMatch) :=
  let valid_nodes := filter_nodes nodes in
  contents ← map_result (λ node, dict_getitem node "content") valid_nodes;
  embeddings ← encode contents;
  tfidf ← fit_transform contents;
  let tfidf_matrix := tfidf.1 in
  let keywords := tfidf.2 in
  let num_nodes := length valid_nodes in
  causal_pairs ← detect_causal_relationships contents;
  hierarchical_pairs ← detect_hierarchical_relationships contents;
  similar_pairs ←
    for_each_pair num_nodes (similar_step valid_nodes embeddings threshold) [];
  keyword_pairs ←
    for_each_pair num_nodes
      (keyword_pair_step order valid_nodes tfidf_matrix keywords keyword_threshold) [];
  Ok (similar_pairs, keyword_pairs, causal_pairs, hierarchical_pairs).

End Engine.

Arguments SimilarityPair : clear implicits.
Arguments SimilarityPair {_}.

(** ** A small set of collaborators, to run the engine on examples

    Numbers are hundredths.  The embedding of a text is its length and two
    texts are the more similar the closer their lengths; the vocabulary is
    fixed and a term weighs 50 in the texts that contain it. *)

Definition toy_vocabulary : list string := [ "demand"; "increased"; "the"; "prices" ].

Definition toy_weights (content : pyval) : result (list Z) :=
  low ← py_lower content;
  Ok ((λ term, if contains term low then 50%Z else 0%Z) <$> toy_vocabulary).

Definition toy_encode (content : pyval) : result Z :=
  match content with
  | PyStr s => Ok (Z.of_nat (String.length s))
  | _ => Raise ExternalError
  end.

#[local] Instance toy : Collaborators := {|
  num := Z;
  gt := Z.gtb;
  nonzero := λ z, negb (z =? 0)%Z;
  embedding := Z;
  encode := map_result toy_encode;
  fit_transform := λ contents,
    rows ← map_result toy_weights contents; Ok (rows, toy_vocabulary);
  cosine_similarity := λ a b, Ok (100 - Z.abs (a - b))%Z;
  stop_words := [ "the"; "a"; "of" ]
|}.

Definition node (id content : pyval) : gmap string pyval :=
  <[ "id" := id ]> (<[ "content" := content ]> ∅).

Definition sales_nodes : list (gmap string pyval) :=
  [ node (PyStr "a") (PyStr "Sales rose because the demand increased.");
    node (PyStr "") (PyStr "dropped: the id is empty");
    node (PyInt 7) (PyStr "Demand increased due to the low prices.");
    {[ "id" := PyStr "c" ]} ].

Definition sales_output
    : list SimilarityPair * list KeywordPair * list CausalMatch * list HierarchicalMatch :=
  ([ {| sp_start_id := "a"; sp_end_id := "7"; sp_similarity := 99%Z |} ],
   [ {| kp_start_id := "a"; kp_end_id := "7";
        kp_keywords := [ "increased"; "demand" ] |} ],
   [ {| cm_id := "0"; cm_phrase := "because";
        cm_context := PyStr "Sales rose because the demand increased." |};
     {| cm_id := "1"; cm_phrase := "due to";
        cm_context := PyStr "Demand increased due to the low prices." |} ],
   []).

(** Three valid nodes whose ids [1], ["b"] and ["1"] are distinct values, two
    of which render to the same string. *)
Definition twin_nodes : list (gmap string pyval) :=
  [ node (PyInt 1) (PyStr "Sales rose.");
    node (PyStr "b") (PyStr "Sales fell.");
    node (PyStr "1") (PyStr "Sales grew.") ].

(** A node without content, which is dropped, declares the id of a node that
    is kept. *)
Definition shadow_nodes : list (gmap string pyval) :=
  [ node (PyStr "a") (PyStr "");
    node (PyStr "a") (PyStr "Sales rose.");
    node (PyStr "b") (PyStr "Sales fell.") ].

(** One valid node, whose content holds a causal phrase and has the shape
    of a numbered heading. *)
Definition single_node : list (gmap string pyval) :=
  [ node (PyStr "a") (PyStr "1. It failed because of a bug.") ].

(** The index pairs in the order the nested loops visit them. *)
Definition index_pairs (n : nat) : list (nat * nat) :=
  i ← range 0 n; pair i <$> range (i + 1) n.

(** ** Notions of the specification *)

(** [phrase] occurs in [content] when case is ignored: some substring of
    [content] equals [phrase] up to the case of its letters. *)
Definition occurs_ci (phrase content : string) : Prop :=
  ∃ pre w post, content = pre +:+ w +:+ post ∧ lower w = lower phrase.

(** A regular expression whose language is empty, by its syntax. *)
Fixpoint void (r : regex) : bool :=
  match r with
  | Void => true
  | Cat r1 r2 => void r1 || void r2
  | Alt r1 r2 => void r1 && void r2
  | _ => false
  end.

(** The node filter as the specification words it: the nodes are taken in
    order, a node is kept when its content and its id are both truthy and
    dropped otherwise. *)
Inductive filtered : list (gmap string pyval) → list (gmap string pyval) → Prop :=
  | filtered_nil : filtered [] []
  | filtered_keep node nodes out :
      truthy (dict_get node "content") = true →
      truthy (dict_get node "id") = true →
      filtered nodes out → filtered (node :: nodes) (node :: out)
  | filtered_drop node nodes out :
      ¬ (truthy (dict_get node "content") = true ∧ truthy (dict_get node "id") = true) →
      filtered nodes out → filtered (node :: nodes) out.

(** Two runs agree: both return, with related results, or both raise the
    same exception. *)
Definition agree {A} (R : A → A → Prop) (r1 r2 : result A) : Prop :=
  match r1, r2 with
  | Ok a1, Ok a2 => R a1 a2
  | Raise e1, Raise e2 => e1 = e2
  | _, _ => False
  end.

(** ** Views of the detectors used in the proofs *)

(** What one phrase contributes for one content. *)
Definition causal_emit1 (idx : nat) (content : pyval) (phrase : string)
    : result (list CausalMatch) :=
  low ← py_lower content;
  Ok (if contains phrase low
      then [ {| cm_id := str (PyInt (Z.of_nat idx)); cm_phrase := phrase;
                cm_context := content |} ]
      else []).

(** What one content contributes. *)
Definition causal_emit (item : nat * pyval) : result (list CausalMatch) :=
  yss ← map_result (causal_emit1 item.1 item.2) causal_phrases; Ok (concat yss).

(** The causal matches of a text at position [idx]. *)
Definition causal_matches (idx : nat) (s : string) : list CausalMatch :=
  (λ phrase, {| cm_id := str (PyInt (Z.of_nat idx)); cm_phrase := phrase;
                cm_context := PyStr s |}) <$>
  filter (λ phrase, contains phrase (lower s)) causal_phrases.

Definition hierarchical_emit1 (idx : nat) (content : pyval) (pattern : regex)
    : result (list HierarchicalMatch) :=
  m ← py_match pattern content;
  Ok (if (m : bool)
      then [ {| hm_id := str (PyInt (Z.of_nat idx)); hm_heading := content |} ]
      else []).

Definition hierarchical_emit (item : nat * pyval) : result (list HierarchicalMatch) :=
  yss ← map_result (hierarchical_emit1 item.1 item.2) heading_patterns; Ok (concat yss).

(** The heading matches of a text at position [idx]. *)
Definition hierarchical_matches (idx : nat) (s : string) : list HierarchicalMatch :=
  (λ _, {| hm_id := str (PyInt (Z.of_nat idx)); hm_heading := PyStr s |}) <$>
  filter (λ pattern, re_match pattern s) heading_patterns.

(** ** Views of the pairwise engines used in the proofs *)

Section EngineViews.
Context {collab : Collaborators}.

(** The declared id of the node at position [i], as the output renders it. *)
Definition rendered_id (valid_nodes : list (gmap string pyval)) (i : nat)
    (s : string) : Prop :=
  ∃ node, valid_nodes !! i = Some node ∧ s = str (dict_get node "id").

(** What the pair [(i, j)] contributes to [similar_pairs]. *)
Definition similar_emit (valid_nodes : list (gmap string pyval))
    (embeddings : list embedding) (threshold : num) (i j : nat)
    : result (list SimilarityPair) :=
  ei ← getitem embeddings i;
  ej ← getitem embeddings j;
  sim ← cosine_similarity ei ej;
  if gt sim threshold then
    start_id ← node_id valid_nodes i;
    end_id ← node_id valid_nodes j;
    Ok [ {| sp_start_id := start_id; sp_end_id := end_id; sp_similarity := sim |} ]
  else Ok [].

(** The set that the comprehension over the common columns builds. *)
Definition keyword_set (tfidf_matrix : list (list num)) (keywords : list string)
    (keyword_threshold : num) (i j : nat) : result (gset string) :=
  row_i ← getitem tfidf_matrix i;
  row_j ← getitem tfidf_matrix j;
  for_each
    (elements (list_to_set (nonzero_columns row_i) ∩
               list_to_set (nonzero_columns row_j) : gset nat))
    (keyword_step tfidf_matrix keywords keyword_threshold i j) (∅ : gset string).

(** What the pair [(i, j)] contributes to [keyword_pairs]. *)
Definition keyword_emit (order : set_listing)
    (valid_nodes : list (gmap string pyval))
    (tfidf_matrix : list (list num)) (keywords : list string)
    (keyword_threshold : num) (i j : nat) : result (list KeywordPair) :=
  common_keywords ← keyword_set tfidf_matrix keywords keyword_threshold i j;
  if bool_decide (common_keywords ≠ ∅) then
    start_id ← node_id valid_nodes i;
    end_id ← node_id valid_nodes j;
    Ok [ {| kp_start_id := start_id; kp_end_id := end_id;
            kp_keywords := order common_keywords |} ]
  else Ok [].

(** The keyword set of a pair as the specification words it: [term] is the
    vocabulary term of a column whose weight is not zero in both rows and
    exceeds the threshold in both rows, and it is not a stopword. *)
Definition shared_keyword (tfidf_matrix : list (list num)) (keywords : list string)
    (keyword_threshold : num) (i j : nat) (term : string) : Prop :=
  ∃ k row_i row_j wi wj,
    tfidf_matrix !! i = Some row_i ∧ tfidf_matrix !! j = Some row_j ∧
    row_i !! k = Some wi ∧ row_j !! k = Some wj ∧
    nonzero wi = true ∧ nonzero wj = true ∧
    gt wi keyword_threshold = true ∧ gt wj keyword_threshold = true ∧
    keywords !! k = Some term ∧ term ∉ stop_words.

(** Two entries link the same unordered pair of ids. *)
Definition same_unordered_pair (a b : SimilarityPair) : Prop :=
  (sp_start_id a = sp_start_id b ∧ sp_end_id a = sp_end_id b) ∨
  (sp_start_id a = sp_end_id b ∧ sp_end_id a = sp_start_id b).

(** A keyword pair with its keywords as a set. *)
Definition kp_view (p : KeywordPair) : string * string * gset string :=
  (kp_start_id p, kp_end_id p, list_to_set (kp_keywords p)).

(** Two outputs hold the same relationships: the same similarity pairs,
    causal matches and hierarchical matches, and the same keyword pairs with
    their keywords taken as sets. *)
Definition same_relationships
    (out1 out2 : list SimilarityPair * list KeywordPair *
                 list CausalMatch * list HierarchicalMatch) : Prop :=
  let '(sp1, kp1, cp1, hp1) := out1 in
  let '(sp2, kp2, cp2, hp2) := out2 in
  sp1 = sp2 ∧ kp_view <$> kp1 = kp_view <$> kp2 ∧ cp1 = cp2 ∧ hp1 = hp2.

End EngineViews.

(** ** Further notions *)




(** [v] is a Python string. *)
Definition is_str (v : pyval) : Prop := ∃ s, v = PyStr s.

(** A field that [node.get] finds falsy: the key is missing, or its value is
    [None], [False], [0] or the empty string. *)
Definition falsy_or_missing (field : option pyval) : Prop :=
  field = None ∨ field = Some PyNone ∨ field = Some (PyBool false) ∨
  field = Some (PyInt 0) ∨ field = Some (PyStr "").


(** The index pair [p] is visited before [q]: the lexicographic order. *)
Definition pair_before (p q : nat * nat) : Prop :=
  p.1 < q.1 ∨ (p.1 = q.1 ∧ p.2 < q.2).

(** * Proofs *)

(** ** The engine on examples *)

Example causal_example :
  detect_causal_relationships [PyStr "It failed because of a bug."; PyStr "Hello"] =
  Ok [ {| cm_id := "0"; cm_phrase := "because";
          cm_context := PyStr "It failed because of a bug." |} ].
Proof. vm_compute. reflexivity. Qed.

Example hier_example :
  detect_hierarchical_relationships
    [PyStr "Hello world"; PyStr "1. Introduction"; PyStr "A. Background"; PyStr "1.  "; PyStr "1. "] =
  Ok [ {| hm_id := "1"; hm_heading := PyStr "1. Introduction" |};
       {| hm_id := "2"; hm_heading := PyStr "A. Background" |};
       {| hm_id := "3"; hm_heading := PyStr "1.  " |} ].
Proof. vm_compute. reflexivity. Qed.

Example sales_example :
  vectorize_and_find_similar canonical_listing sales_nodes 80%Z 20%Z = Ok sales_output.
Proof. vm_compute. reflexivity. Qed.

(** ** The error monad and the loops *)

Lemma bind_Ok {A B} (m : result A) (k : A → result B) (b : B) :
  (m ≫= k) = Ok b ↔ ∃ a, m = Ok a ∧ k a = Ok b.
Proof.
  destruct m as [a|e]; simpl.
  - split; [eauto | intros (a' & [= <-] & Hk); exact Hk].
  - split; [discriminate | intros (a' & [=] & _)].
Qed.

Lemma map_result_Forall2 {A B} (f : A → result B) (xs : list A) (ys : list B) :
  map_result f xs = Ok ys ↔ Forall2 (λ x y, f x = Ok y) xs ys.
Proof.
  revert ys. induction xs as [|x xs IH]; intros ys; simpl.
  - split; [intros [= <-]; constructor | inversion 1; reflexivity].
  - split.
    + intros (y & Hy & (ys' & Hys & [= <-])%bind_Ok)%bind_Ok.
      constructor; [exact Hy | by apply IH].
    + inversion 1 as [|? y ? ys' Hy Hys]; subst.
      apply bind_Ok. exists y. split; [exact Hy|].
      apply bind_Ok. exists ys'. split; [by apply IH | reflexivity].
Qed.

Lemma map_result_pure {A B} (f : A → B) (xs : list A) :
  map_result (λ x, Ok (f x)) xs = Ok (f <$> xs).
Proof. apply map_result_Forall2, Forall2_fmap_r, Forall_Forall2_diag, Forall_true. done. Qed.

Lemma map_result_ext {A B} (f g : A → result B) (xs : list A) :
  (∀ x, x ∈ xs → f x = g x) → map_result f xs = map_result g xs.
Proof.
  induction xs as [|x xs IH]; intros Hfg; simpl; [reflexivity|].
  rewrite Hfg by left. destruct (g x); simpl; [|reflexivity].
  rewrite IH; [reflexivity|]. intros y Hy. apply Hfg. by right.
Qed.

(** A loop whose body appends what [emit] produces collects the
    concatenation of the productions. *)
Lemma for_each_emit {A B} (emit : A → result (list B))
    (body : A → list B → result (list B)) (xs : list A) (acc : list B) :
  (∀ x acc', body x acc' = (ys ← emit x; Ok (acc' ++ ys))) →
  for_each xs body acc = (yss ← map_result emit xs; Ok (acc ++ concat yss)).
Proof.
  intros Hbody. revert acc. induction xs as [|x xs IH]; intros acc; simpl.
  - by rewrite app_nil_r.
  - rewrite Hbody. destruct (emit x) as [ys|e]; simpl; [|reflexivity].
    rewrite IH. destruct (map_result emit xs) as [yss|e]; simpl; [|reflexivity].
    by rewrite app_assoc.
Qed.

Lemma for_each_app {A S} (xs1 xs2 : list A) (body : A → S → result S) (s : S) :
  for_each (xs1 ++ xs2) body s = (s' ← for_each xs1 body s; for_each xs2 body s').
Proof.
  revert s. induction xs1 as [|x xs1 IH]; intros s; simpl; [reflexivity|].
  destruct (body x s); simpl; [apply IH | reflexivity].
Qed.

Lemma for_each_bind {A A' S} (xs : list A) (inner : A → list A')
    (body : A → A' → S → result S) (s : S) :
  for_each xs (λ x s', for_each (inner x) (body x) s') s =
  for_each (x ← xs; pair x <$> inner x) (λ p, body p.1 p.2) s.
Proof.
  revert s. induction xs as [|x xs IH]; intros s; simpl; [reflexivity|].
  rewrite for_each_app.
  assert (Hin : ∀ l s0, for_each (pair x <$> l) (λ p, body p.1 p.2) s0 =
                        for_each l (body x) s0).
  { induction l as [|y l IHl]; intros s0; simpl; [reflexivity|].
    destruct (body x y s0); simpl; [apply IHl | reflexivity]. }
  rewrite Hin. destruct (for_each (inner x) (body x) s); simpl; [apply IH | reflexivity].
Qed.

Lemma for_each_pair_emit {B} (emit : nat → nat → result (list B))
    (body : nat → nat → list B → result (list B)) (n : nat) (acc : list B) :
  (∀ i j acc', body i j acc' = (ys ← emit i j; Ok (acc' ++ ys))) →
  for_each_pair n body acc =
  (yss ← map_result (λ p, emit p.1 p.2) (index_pairs n); Ok (acc ++ concat yss)).
Proof.
  intros Hbody. unfold for_each_pair, index_pairs.
  rewrite (for_each_bind (range 0 n) (λ i, range (i + 1) n) body).
  apply for_each_emit. intros [i j] acc'. apply Hbody.
Qed.

Lemma elem_of_range (a b k : nat) : k ∈ range a b ↔ a ≤ k < b.
Proof. unfold range. rewrite elem_of_seq. lia. Qed.

Lemma elem_of_index_pairs (n i j : nat) : (i, j) ∈ index_pairs n ↔ i < j < n.
Proof.
  unfold index_pairs. rewrite list_elem_of_bind. split.
  - intros (i' & Hj & Hi). apply elem_of_range in Hi.
    apply list_elem_of_fmap in Hj as (j' & [= -> ->] & Hj'%elem_of_range). lia.
  - intros Hij. exists i. split; [|apply elem_of_range; lia].
    apply list_elem_of_fmap. exists j. split; [reflexivity | apply elem_of_range; lia].
Qed.

Lemma NoDup_index_pairs (n : nat) : NoDup (index_pairs n).
Proof.
  unfold index_pairs.
  apply NoDup_bind.
  - intros i1 i2 p _ _ Hp1 Hp2.
    apply list_elem_of_fmap in Hp1 as (? & -> & _).
    apply list_elem_of_fmap in Hp2 as (? & [= <- _] & _). reflexivity.
  - intros i _. apply NoDup_fmap_2; [intros ?? [=]; done | apply NoDup_seq].
  - apply NoDup_seq.
Qed.

(** When every production holds at most one element, the collected list is
    in one-to-one correspondence with the inputs that produced one. *)
Lemma select_singletons {A B} (f : A → result (list B)) (xs : list A)
    (yss : list (list B)) :
  map_result f xs = Ok yss →
  (∀ x ys, f x = Ok ys → length ys ≤ 1) →
  ∃ ps, ps `sublist_of` xs ∧
        Forall2 (λ x e, f x = Ok [e]) ps (concat yss) ∧
        ∀ x e, x ∈ xs → f x = Ok [e] → x ∈ ps.
Proof.
  intros Hmap Hone. apply map_result_Forall2 in Hmap.
  induction Hmap as [|x ys xs yss Hx Hmap IH].
  - exists []. split; [constructor|]. split; [constructor|]. intros x e Hx. inversion Hx.
  - destruct IH as (ps & Hsub & Hall & Hin).
    pose proof (Hone _ _ Hx) as Hlen.
    destruct ys as [|e [|]]; simpl in *; try lia.
    + exists ps. split; [by apply sublist_cons|]. split; [exact Hall|].
      intros x' e' Hx' Hfx'. apply elem_of_cons in Hx' as [->|Hx'].
      * rewrite Hx in Hfx'. discriminate.
      * eauto.
    + exists (x :: ps). split; [by apply sublist_skip|]. split; [by constructor|].
      intros x' e' Hx' Hfx'. apply elem_of_cons in Hx' as [->|Hx'].
      * left.
      * right. eauto.
Qed.

(** ** Text *)

Lemma lower_app (a b : string) : lower (a +:+ b) = lower a +:+ lower b.
Proof. induction a as [|c a IH]; simpl; [reflexivity | by rewrite IH]. Qed.

Lemma lower_split (s a b : string) :
  lower s = a +:+ b → ∃ a' b', s = a' +:+ b' ∧ lower a' = a ∧ lower b' = b.
Proof.
  revert s. induction a as [|c a IH]; intros s Hs; simpl in *.
  - exists EmptyString, s. done.
  - destruct s as [|c' s]; simpl in Hs; [discriminate|].
    injection Hs as Hc Hs. destruct (IH _ Hs) as (a' & b' & -> & Ha & Hb).
    exists (String c' a'), b'. simpl. by rewrite Hc, Ha.
Qed.

Lemma starts_with_spec (p s : string) :
  starts_with p s = true ↔ ∃ post, s = p +:+ post.
Proof.
  revert s. induction p as [|a p IH]; intros s; simpl.
  - split; [eauto | done].
  - destruct s as [|b s].
    + split; [discriminate | intros (? & [=])].
    + rewrite andb_true_iff, Ascii.eqb_eq, IH. split.
      * intros (-> & post & ->). eauto.
      * intros (post & [= -> ->]). eauto.
Qed.

Lemma contains_spec (p s : string) :
  contains p s = true ↔ ∃ pre post, s = pre +:+ p +:+ post.
Proof.
  induction s as [|c s IH]; simpl.
  - rewrite orb_false_r, starts_with_spec. split.
    + intros (post & ->). by exists EmptyString, post.
    + intros ([|] & post & Hs); simpl in Hs; [eauto | discriminate].
  - rewrite orb_true_iff, starts_with_spec, IH. split.
    + intros [(post & ->)|(pre & post & ->)].
      * by exists EmptyString, post.
      * by exists (String c pre), post.
    + intros ([|c' pre] & post & Hs); simpl in Hs.
      * left. eauto.
      * injection Hs as -> ->. right. eauto.
Qed.

Lemma contains_lower_occurs (phrase content : string) :
  lower phrase = phrase →
  contains phrase (lower content) = true ↔ occurs_ci phrase content.
Proof.
  intros Hp. rewrite contains_spec. unfold occurs_ci. split.
  - intros (pre & post & Hs).
    apply lower_split in Hs as (pre' & rest & -> & _ & Hrest).
    apply lower_split in Hrest as (w & post' & -> & Hw & _).
    exists pre', w, post'. by rewrite Hp.
  - intros (pre & w & post & -> & Hw).
    exists (lower pre), (lower post). by rewrite !lower_app, Hw, Hp.
Qed.

Lemma causal_phrases_lower : Forall (λ p, lower p = p) causal_phrases.
Proof. repeat constructor. Qed.

Lemma causal_phrases_NoDup : NoDup causal_phrases.
Proof. apply (bool_decide_unpack _). vm_compute. exact I. Qed.

Lemma str_index_inj (i j : nat) :
  str (PyInt (Z.of_nat i)) = str (PyInt (Z.of_nat j)) → i = j.
Proof. simpl. intros Hij%(inj pretty). lia. Qed.

(** ** Regular expressions *)

(** A syntactic criterion for the empty language. *)
Lemma void_not_nullable (r : regex) : void r = true → nullable r = false.
Proof.
  induction r; simpl; try done.
  - intros [?|?]%orb_true_iff; rewrite ?IHr1, ?IHr2 by done; [done | apply andb_false_r].
  - intros [??]%andb_true_iff. by rewrite IHr1, IHr2.
Qed.

Lemma void_deriv (c : ascii) (r : regex) : void r = true → void (deriv c r) = true.
Proof.
  induction r; simpl; try done.
  - intros Hv. destruct (nullable r1) eqn:Hn; simpl.
    + apply orb_true_iff in Hv as [Hv|Hv].
      * by rewrite (void_not_nullable _ Hv) in Hn.
      * by rewrite Hv, IHr2, orb_true_r.
    + apply orb_true_iff in Hv as [Hv|Hv]; [by rewrite IHr1 | by rewrite Hv, orb_true_r].
  - intros [??]%andb_true_iff. by rewrite IHr1, IHr2.
Qed.

Lemma void_no_match (r : regex) (s : string) : void r = true → re_match r s = false.
Proof.
  revert r. induction s as [|c s IH]; intros r Hv; simpl.
  - by rewrite void_not_nullable.
  - rewrite void_not_nullable by done. simpl. apply IH. by apply void_deriv.
Qed.

(** A match of [class+ rest] starts with a character of the class. *)
Lemma re_match_plus_head (p : ascii → bool) (rest : regex) (s : string) :
  re_match (Cat (Plus (Class p)) rest) s = true →
  ∃ c s', s = String c s' ∧ p c = true.
Proof.
  destruct s as [|c s]; simpl; [discriminate|].
  intros Hm. exists c, s. split; [reflexivity|].
  destruct (p c) eqn:Hp; [reflexivity|].
  rewrite void_no_match in Hm; [discriminate | reflexivity].
Qed.

Lemma digit_not_letter (c : ascii) : is_digit c = true → is_letter c = false.
Proof.
  unfold is_digit, is_letter. cbv zeta.
  rewrite !andb_true_iff, orb_false_iff, !andb_false_iff, !Nat.leb_le, !Nat.leb_gt. lia.
Qed.

Lemma heading_patterns_disjoint (s : string) :
  re_match numbered_heading s = true → re_match lettered_heading s = false.
Proof.
  intros (c & s' & -> & Hd)%re_match_plus_head.
  destruct (re_match lettered_heading (String c s')) eqn:Hl; [|reflexivity].
  apply re_match_plus_head in Hl as (c' & ? & [= <- _] & Hl).
  by rewrite (digit_not_letter _ Hd) in Hl.
Qed.

(** ** Pattern detectors *)

Lemma elem_of_enumerate {A} (l : list A) (i : nat) (x : A) :
  (i, x) ∈ enumerate l ↔ l !! i = Some x.
Proof.
  unfold enumerate. rewrite elem_of_lookup_imap. split.
  - intros (i' & x' & [= -> ->] & Hl). exact Hl.
  - intros Hl. eauto.
Qed.

Lemma concat_fmap_if {A B} (c : A → bool) (f : A → B) (l : list A) :
  concat ((λ x, if c x then [f x] else []) <$> l) = f <$> filter (λ x, c x) l.
Proof.
  induction l as [|x l IH]; [reflexivity|].
  rewrite fmap_cons, filter_cons. cbn [concat]. rewrite IH.
  by destruct (c x).
Qed.

Lemma detect_causal_unfold (contents : list pyval) :
  detect_causal_relationships contents =
  (yss ← map_result causal_emit (enumerate contents); Ok (concat yss)).
Proof.
  unfold detect_causal_relationships.
  apply (for_each_emit causal_emit). intros [idx content] acc. unfold causal_emit.
  rewrite (for_each_emit (causal_emit1 idx content)).
  - cbn [fst snd]. by destruct (map_result (causal_emit1 idx content) causal_phrases).
  - intros phrase acc'. unfold causal_step, causal_emit1.
    destruct (py_lower content) as [low|]; simpl; [|reflexivity].
    destruct (contains phrase low); [reflexivity | by rewrite app_nil_r].
Qed.

Lemma detect_hierarchical_unfold (contents : list pyval) :
  detect_hierarchical_relationships contents =
  (yss ← map_result hierarchical_emit (enumerate contents); Ok (concat yss)).
Proof.
  unfold detect_hierarchical_relationships.
  apply (for_each_emit hierarchical_emit). intros [idx content] acc.
  unfold hierarchical_emit.
  rewrite (for_each_emit (hierarchical_emit1 idx content)).
  - cbn [fst snd]. by destruct (map_result (hierarchical_emit1 idx content) heading_patterns).
  - intros pattern acc'. unfold hierarchical_step, hierarchical_emit1.
    destruct (py_match pattern content) as [[]|]; simpl;
      [reflexivity | by rewrite app_nil_r | reflexivity].
Qed.

Lemma causal_emit_str (idx : nat) (s : string) :
  causal_emit (idx, PyStr s) = Ok (causal_matches idx s).
Proof.
  unfold causal_emit, causal_matches. cbn [fst snd].
  rewrite <- (concat_fmap_if (λ phrase, contains phrase (lower s))).
  apply bind_Ok. eexists. split; [|reflexivity].
  exact (map_result_pure _ causal_phrases).
Qed.

Lemma hierarchical_emit_str (idx : nat) (s : string) :
  hierarchical_emit (idx, PyStr s) = Ok (hierarchical_matches idx s).
Proof.
  unfold hierarchical_emit, hierarchical_matches. cbn [fst snd].
  rewrite <- (concat_fmap_if (λ pattern, re_match pattern s)).
  apply bind_Ok. eexists. split; [|reflexivity].
  exact (map_result_pure _ heading_patterns).
Qed.

Lemma map_result_enumerate_str {B} (emit : nat * pyval → result B)
    (pure : nat → string → B) (ss : list string) :
  (∀ idx s, emit (idx, PyStr s) = Ok (pure idx s)) →
  map_result emit (enumerate (PyStr <$> ss)) = Ok (imap pure ss).
Proof.
  intros Hemit. unfold enumerate. rewrite imap_fmap.
  apply map_result_Forall2. apply Forall2_lookup. intros i.
  rewrite !list_lookup_imap. destruct (ss !! i); constructor. apply Hemit.
Qed.

Lemma detect_causal_strings (ss : list string) :
  detect_causal_relationships (PyStr <$> ss) = Ok (concat (imap causal_matches ss)).
Proof.
  rewrite detect_causal_unfold.
  by rewrite (map_result_enumerate_str _ causal_matches) by apply causal_emit_str.
Qed.

Lemma detect_hierarchical_strings (ss : list string) :
  detect_hierarchical_relationships (PyStr <$> ss) =
  Ok (concat (imap hierarchical_matches ss)).
Proof.
  rewrite detect_hierarchical_unfold.
  by rewrite (map_result_enumerate_str _ hierarchical_matches)
    by apply hierarchical_emit_str.
Qed.

Lemma elem_of_concat {A} (x : A) (ls : list (list A)) :
  x ∈ concat ls ↔ ∃ l, x ∈ l ∧ l ∈ ls.
Proof.
  induction ls as [|l ls IH]; simpl.
  - split; [inversion 1 | intros (l & _ & Hl); inversion Hl].
  - rewrite elem_of_app, IH. split.
    + intros [Hx|(l' & Hx & Hl')]; [exists l; split; [done | left] |].
      exists l'. split; [done | by right].
    + intros (l' & Hx & [->|Hl']%elem_of_cons); [by left | right; eauto].
Qed.

Lemma filter_concat {A} (P : A → Prop) `{∀ x, Decision (P x)} (ls : list (list A)) :
  filter P (concat ls) = concat (filter P <$> ls).
Proof.
  induction ls as [|l ls IH]; [reflexivity|].
  rewrite fmap_cons. cbn [concat]. by rewrite filter_app, IH.
Qed.

Lemma concat_imap_nil {A B} (g : nat → A → list B) (l : list A) :
  (∀ i y, l !! i = Some y → g i y = []) → concat (imap g l) = [].
Proof.
  revert g. induction l as [|a l IH]; intros g Hg; [reflexivity|].
  rewrite imap_cons. cbn [concat]. rewrite (Hg 0 a) by reflexivity.
  apply IH. intros i y Hy. exact (Hg (S i) y Hy).
Qed.

(** Only position [idx] contributes: the concatenation is its contribution. *)
Lemma concat_imap_single {A B} (g : nat → A → list B) (l : list A) (idx : nat) (x : A) :
  l !! idx = Some x →
  (∀ i y, i ≠ idx → l !! i = Some y → g i y = []) →
  concat (imap g l) = g idx x.
Proof.
  revert g idx. induction l as [|a l IH]; intros g idx Hx Hg; [discriminate|].
  rewrite imap_cons. cbn [concat]. destruct idx as [|idx]; simpl in Hx.
  - injection Hx as ->. rewrite concat_imap_nil; [apply app_nil_r|].
    intros i y Hy. exact (Hg (S i) y ltac:(lia) Hy).
  - rewrite (Hg 0 a) by (done || lia). simpl.
    apply (IH (g ∘ S) idx Hx). intros i y Hi Hy. exact (Hg (S i) y ltac:(lia) Hy).
Qed.

Lemma filter_fmap_list {A B} (f : A → B) (P : B → Prop) `{∀ y, Decision (P y)}
    (l : list A) :
  filter P (f <$> l) = f <$> filter (λ x, P (f x)) l.
Proof.
  induction l as [|x l IH]; [reflexivity|].
  rewrite fmap_cons, !filter_cons, IH. by destruct (decide (P (f x))).
Qed.

Lemma filter_none {A} (P : A → Prop) `{∀ x, Decision (P x)} (l : list A) :
  (∀ x, x ∈ l → ¬ P x) → filter P l = [].
Proof.
  induction l as [|x l IH]; intros Hl; [reflexivity|].
  rewrite filter_cons_False by (apply Hl; left). apply IH.
  intros y Hy. apply Hl. by right.
Qed.

Lemma filter_eq_NoDup {A} `{EqDecision A} (l : list A) (a : A) :
  NoDup l → filter (λ x, x = a) l = if decide (a ∈ l) then [a] else [].
Proof.
  induction 1 as [|x l Hx Hl IH]; [reflexivity|].
  rewrite filter_cons, IH. destruct (decide (x = a)) as [->|Hne].
  - rewrite decide_False by done. rewrite decide_True by left. reflexivity.
  - destruct (decide (a ∈ l)) as [Hin|Hin].
    + rewrite decide_True by (by right). reflexivity.
    + rewrite decide_False; [reflexivity|].
      intros [?|?]%elem_of_cons; [congruence | done].
Qed.

(** The matches of position [idx] for [phrase] among the matches of a text
    at position [i]. *)
Lemma causal_matches_filter (i idx : nat) (s phrase : string) :
  filter (λ m, cm_id m = str (PyInt (Z.of_nat idx)) ∧ cm_phrase m = phrase)
         (causal_matches i s) =
  if decide (i = idx ∧ phrase ∈ causal_phrases ∧ contains phrase (lower s) = true)
  then [ {| cm_id := str (PyInt (Z.of_nat idx)); cm_phrase := phrase;
            cm_context := PyStr s |} ]
  else [].
Proof.
  unfold causal_matches. rewrite filter_fmap_list. cbn [cm_id cm_phrase].
  destruct (decide (i = idx)) as [->|Hne].
  - rewrite (list_filter_iff _ (λ p, p = phrase)) by (intros; tauto).
    rewrite filter_eq_NoDup by apply NoDup_filter, causal_phrases_NoDup.
    destruct (decide (phrase ∈ filter _ causal_phrases)) as [Hin|Hin];
      rewrite list_elem_of_filter, Is_true_true in Hin.
    + rewrite decide_True by tauto. reflexivity.
    + rewrite decide_False by tauto. reflexivity.
  - rewrite decide_False by tauto.
    rewrite filter_none; [reflexivity|].
    intros p _ [Hid%str_index_inj _]. done.
Qed.

Lemma causal_matches_filter_id (i idx : nat) (s : string) :
  i ≠ idx →
  filter (λ m, cm_id m = str (PyInt (Z.of_nat idx))) (causal_matches i s) = [].
Proof.
  intros Hne. apply filter_none. intros m Hm Hid.
  unfold causal_matches in Hm. apply list_elem_of_fmap in Hm as (p & -> & _).
  by apply str_index_inj in Hid.
Qed.

(** C8: for every list of content strings the causal detector returns, and
    in its result the entries of position [idx] for a phrase are exactly one
    entry when the phrase is a causal phrase that occurs in the content of
    that position with case ignored (however often it occurs), and none
    otherwise; a content in which no causal phrase occurs has no entry. *)
Theorem causal_one_match_per_occurring_phrase (contents : list string) :
  ∃ out, detect_causal_relationships (PyStr <$> contents) = Ok out ∧
    ∀ idx content, contents !! idx = Some content →
      (∀ phrase,
         (phrase ∈ causal_phrases → occurs_ci phrase content →
          filter (λ m, cm_id m = str (PyInt (Z.of_nat idx)) ∧ cm_phrase m = phrase) out =
          [ {| cm_id := str (PyInt (Z.of_nat idx)); cm_phrase := phrase;
               cm_context := PyStr content |} ]) ∧
         (¬ (phrase ∈ causal_phrases ∧ occurs_ci phrase content) →
          filter (λ m, cm_id m = str (PyInt (Z.of_nat idx)) ∧ cm_phrase m = phrase) out = [])) ∧
      ((∀ phrase, phrase ∈ causal_phrases → ¬ occurs_ci phrase content) →
       filter (λ m, cm_id m = str (PyInt (Z.of_nat idx))) out = []).
Proof.
  exists (concat (imap causal_matches contents)).
  split; [apply detect_causal_strings|].
  intros idx content Hidx.
  assert (Hocc : ∀ phrase, phrase ∈ causal_phrases →
            contains phrase (lower content) = true ↔ occurs_ci phrase content).
  { intros phrase Hin. apply contains_lower_occurs.
    by apply (proj1 (Forall_forall _ _) causal_phrases_lower). }
  assert (Hsel : ∀ phrase,
    filter (λ m, cm_id m = str (PyInt (Z.of_nat idx)) ∧ cm_phrase m = phrase)
      (concat (imap causal_matches contents)) =
    if decide (phrase ∈ causal_phrases ∧ contains phrase (lower content) = true)
    then [ {| cm_id := str (PyInt (Z.of_nat idx)); cm_phrase := phrase;
              cm_context := PyStr content |} ]
    else []).
  { intros phrase. rewrite filter_concat, fmap_imap.
    rewrite (concat_imap_single _ contents idx content Hidx).
    - unfold compose. rewrite causal_matches_filter.
      destruct (decide (phrase ∈ causal_phrases ∧ _)) as [Hd|Hd].
      + rewrite decide_True by tauto. reflexivity.
      + rewrite decide_False by tauto. reflexivity.
    - intros i s Hne _. unfold compose. rewrite causal_matches_filter.
      rewrite decide_False by tauto. reflexivity. }
  split.
  - intros phrase. rewrite Hsel. split.
    + intros Hin Hoc. rewrite decide_True; [reflexivity|].
      split; [exact Hin | by apply Hocc].
    + intros Hno. rewrite decide_False; [reflexivity|].
      intros [Hin Hc]. apply Hno. split; [exact Hin | by apply Hocc].
  - intros Hnone. rewrite filter_concat, fmap_imap.
    apply concat_imap_nil. intros i s Hs. unfold compose.
    destruct (decide (i = idx)) as [->|Hne]; [|by apply causal_matches_filter_id].
    assert (s = content) as -> by congruence.
    unfold causal_matches.
    rewrite (filter_none (λ phrase : string, Is_true (contains phrase (lower content))));
      [reflexivity|].
    intros p Hp Hc%Is_true_true. by apply (Hnone p Hp), Hocc.
Qed.

Lemma hierarchical_matches_length (idx : nat) (s : string) :
  length (hierarchical_matches idx s) ≤ 1.
Proof.
  unfold hierarchical_matches, heading_patterns. rewrite length_fmap, !filter_cons, filter_nil.
  destruct (re_match numbered_heading s) eqn:Hn; simpl; [|destruct (decide _); simpl; lia].
  rewrite (heading_patterns_disjoint s Hn). simpl. lia.
Qed.

Lemma hierarchical_matches_elem (idx : nat) (s : string) (m : HierarchicalMatch) :
  m ∈ hierarchical_matches idx s →
  m = {| hm_id := str (PyInt (Z.of_nat idx)); hm_heading := PyStr s |}.
Proof. unfold hierarchical_matches. by intros (? & -> & _)%list_elem_of_fmap. Qed.

Lemma hierarchical_matches_filter_id (i idx : nat) (s : string) :
  i ≠ idx →
  filter (λ m, hm_id m = str (PyInt (Z.of_nat idx))) (hierarchical_matches i s) = [].
Proof.
  intros Hne. apply filter_none. intros m ->%hierarchical_matches_elem Hid.
  by apply str_index_inj in Hid.
Qed.

(** C10: for every list of content strings the hierarchical detector
    returns, with at most one entry per position: no string matches both
    heading patterns, whose first characters are a digit and a letter.  The
    heading of an entry is the whole content of its position. *)
Theorem hierarchical_at_most_one_match (contents : list string) :
  ∃ out, detect_hierarchical_relationships (PyStr <$> contents) = Ok out ∧
    (∀ idx, length (filter (λ m, hm_id m = str (PyInt (Z.of_nat idx))) out) ≤ 1) ∧
    (∀ m, m ∈ out →
       ∃ idx content, contents !! idx = Some content ∧
         hm_id m = str (PyInt (Z.of_nat idx)) ∧ hm_heading m = PyStr content) ∧
    (∀ s, ¬ (re_match numbered_heading s = true ∧ re_match lettered_heading s = true)).
Proof.
  exists (concat (imap hierarchical_matches contents)).
  split; [apply detect_hierarchical_strings|]. split; [|split].
  - intros idx. rewrite filter_concat, fmap_imap.
    destruct (contents !! idx) as [content|] eqn:Hidx.
    + rewrite (concat_imap_single _ contents idx content Hidx).
      * unfold compose. etrans; [apply length_filter | apply hierarchical_matches_length].
      * intros i s Hne _. unfold compose. by apply hierarchical_matches_filter_id.
    + rewrite concat_imap_nil; [simpl; lia|].
      intros i s Hs. unfold compose. apply hierarchical_matches_filter_id. congruence.
  - intros m (l & Hm & Hl)%elem_of_concat.
    apply elem_of_lookup_imap in Hl as (idx & content & -> & Hidx).
    apply hierarchical_matches_elem in Hm as ->. by exists idx, content.
  - intros s [Hn Hl]. rewrite (heading_patterns_disjoint s Hn) in Hl. discriminate.
Qed.

(** ** Node filter *)

Lemma is_valid_true (node : gmap string pyval) :
  is_valid node ↔
  truthy (dict_get node "content") = true ∧ truthy (dict_get node "id") = true.
Proof. unfold is_valid. by rewrite Is_true_true, andb_true_iff. Qed.

Lemma filter_nodes_idemp (nodes : list (gmap string pyval)) :
  filter_nodes (filter_nodes nodes) = filter_nodes nodes.
Proof.
  unfold filter_nodes. rewrite list_filter_filter.
  apply list_filter_iff. tauto.
Qed.

(** C4: the node filter returns exactly the nodes whose content and id are
    both truthy, in their original order; it is a function on every node
    list, and nodes it drops leave no trace: the engine run on the raw list
    is the engine run on the filtered list. *)
Theorem node_filter_exact (nodes : list (gmap string pyval)) :
  filtered nodes (filter_nodes nodes) ∧
  (∀ out, filtered nodes out → out = filter_nodes nodes) ∧
  filter_nodes nodes `sublist_of` nodes ∧
  (∀ node, node ∈ filter_nodes nodes ↔
     node ∈ nodes ∧
     truthy (dict_get node "content") = true ∧ truthy (dict_get node "id") = true) ∧
  (∀ (C : Collaborators) (order : set_listing) (threshold keyword_threshold : num),
     vectorize_and_find_similar order nodes threshold keyword_threshold =
     vectorize_and_find_similar order (filter_nodes nodes) threshold keyword_threshold).
Proof.
  split; [|split; [|split; [|split]]].
  - induction nodes as [|node nodes IH]; [constructor|].
    unfold filter_nodes. rewrite filter_cons.
    destruct (decide (is_valid node)) as [Hv|Hv]; rewrite is_valid_true in Hv.
    + apply filtered_keep; tauto.
    + by apply filtered_drop.
  - intros out Hout. induction Hout as [|node nodes out Hc Hi _ IH|node nodes out Hno _ IH].
    + reflexivity.
    + unfold filter_nodes. rewrite filter_cons_True by (by apply is_valid_true).
      by rewrite IH.
    + unfold filter_nodes. rewrite filter_cons_False by (by rewrite is_valid_true).
      exact IH.
  - apply sublist_filter.
  - intros node. unfold filter_nodes. rewrite list_elem_of_filter, is_valid_true. tauto.
  - intros C order threshold keyword_threshold.
    unfold vectorize_and_find_similar. by rewrite filter_nodes_idemp.
Qed.

Lemma map_result_elem {A B} (f : A → result (list B)) (xs : list A)
    (yss : list (list B)) (y : B) :
  map_result f xs = Ok yss → y ∈ concat yss →
  ∃ x ys, x ∈ xs ∧ f x = Ok ys ∧ y ∈ ys.
Proof.
  intros Hmap%map_result_Forall2 (ys & Hy & Hys)%elem_of_concat.
  apply list_elem_of_lookup in Hys as (i & Hi).
  destruct (Forall2_lookup_r _ _ _ _ _ Hmap Hi) as (x & Hx & Hfx).
  exists x, ys. split; [by eapply list_elem_of_lookup_2 | done].
Qed.

Lemma map_result_total {A B} (f : A → result B) (xs : list A) (ys : list B) (x : A) :
  map_result f xs = Ok ys → x ∈ xs → ∃ y, f x = Ok y.
Proof.
  intros Hmap%map_result_Forall2 (i & Hi)%list_elem_of_lookup.
  destruct (Forall2_lookup_l _ _ _ _ _ Hmap Hi) as (y & _ & Hfx). eauto.
Qed.

Lemma detect_causal_elem (contents : list pyval) (out : list CausalMatch)
    (m : CausalMatch) :
  detect_causal_relationships contents = Ok out → m ∈ out →
  ∃ idx, contents !! idx = Some (cm_context m) ∧
    cm_id m = str (PyInt (Z.of_nat idx)) ∧ cm_phrase m ∈ causal_phrases.
Proof.
  rewrite detect_causal_unfold. intros (yss & Hmap & [= <-])%bind_Ok Hm.
  destruct (map_result_elem _ _ _ _ Hmap Hm) as ([idx content] & ys & Hitem & Hemit & Hys).
  apply elem_of_enumerate in Hitem. unfold causal_emit in Hemit.
  apply bind_Ok in Hemit as (zss & Hmap' & [= <-]). cbn [fst snd] in Hmap'.
  destruct (map_result_elem _ _ _ _ Hmap' Hys) as (phrase & zs & Hphrase & Hemit1 & Hzs).
  unfold causal_emit1 in Hemit1. apply bind_Ok in Hemit1 as (low & _ & [= <-]).
  destruct (contains phrase low); [|inversion Hzs].
  apply list_elem_of_singleton in Hzs as ->. by exists idx.
Qed.

Lemma detect_hierarchical_elem (contents : list pyval) (out : list HierarchicalMatch)
    (m : HierarchicalMatch) :
  detect_hierarchical_relationships contents = Ok out → m ∈ out →
  ∃ idx, contents !! idx = Some (hm_heading m) ∧ hm_id m = str (PyInt (Z.of_nat idx)).
Proof.
  rewrite detect_hierarchical_unfold. intros (yss & Hmap & [= <-])%bind_Ok Hm.
  destruct (map_result_elem _ _ _ _ Hmap Hm) as ([idx content] & ys & Hitem & Hemit & Hys).
  apply elem_of_enumerate in Hitem. unfold hierarchical_emit in Hemit.
  apply bind_Ok in Hemit as (zss & Hmap' & [= <-]). cbn [fst snd] in Hmap'.
  destruct (map_result_elem _ _ _ _ Hmap' Hys) as (pattern & zs & _ & Hemit1 & Hzs).
  unfold hierarchical_emit1 in Hemit1. apply bind_Ok in Hemit1 as (b & _ & [= <-]).
  destruct b; [|inversion Hzs].
  apply list_elem_of_singleton in Hzs as ->. by exists idx.
Qed.

Lemma map_result_agree {A B} (R : B → B → Prop) (f g : A → result B) (xs : list A) :
  (∀ x, agree R (f x) (g x)) →
  agree (Forall2 R) (map_result f xs) (map_result g xs).
Proof.
  intros Hfg. induction xs as [|x xs IH]; simpl; [constructor|].
  specialize (Hfg x). destruct (f x), (g x); simpl in *; try done.
  destruct (map_result f xs), (map_result g xs); simpl in *; try done.
  by constructor.
Qed.

(** ** The pairwise engines *)

Section EngineProofs.
Context {collab : Collaborators}.

Implicit Types (nodes valid_nodes : list (gmap string pyval)).
Implicit Types (order : set_listing) (threshold keyword_threshold : num).

Lemma contents_of_valid nodes :
  map_result (λ node, dict_getitem node "content") (filter_nodes nodes) =
  Ok ((λ node, dict_get node "content") <$> filter_nodes nodes).
Proof.
  apply map_result_Forall2, Forall2_fmap_r, Forall_Forall2_diag, Forall_forall.
  intros node Hnode. unfold filter_nodes in Hnode.
  apply list_elem_of_filter in Hnode as [[Hc _]%is_valid_true _].
  unfold compose, dict_getitem, dict_get in *. by destruct (node !! "content").
Qed.

Lemma node_id_valid nodes i s :
  node_id (filter_nodes nodes) i = Ok s ↔ rendered_id (filter_nodes nodes) i s.
Proof.
  unfold node_id, rendered_id, getitem. split.
  - intros (node & Hn & (v & Hv & [= <-])%bind_Ok)%bind_Ok.
    destruct (filter_nodes nodes !! i) as [node'|]; [|discriminate].
    injection Hn as ->. exists node. split; [reflexivity|].
    unfold dict_getitem, dict_get in *. destruct (node !! "id"); [|discriminate].
    by injection Hv as ->.
  - intros (node & Hn & ->). rewrite Hn. simpl.
    assert (Hv : is_valid node).
    { apply list_elem_of_lookup_2 in Hn. unfold filter_nodes in Hn.
      by apply list_elem_of_filter in Hn as [? _]. }
    apply is_valid_true in Hv as [_ Hid].
    unfold dict_getitem, dict_get in *. by destruct (node !! "id").
Qed.

Lemma similar_step_emit valid_nodes (embeddings : list embedding) threshold i j
    (acc : list SimilarityPair) :
  similar_step valid_nodes embeddings threshold i j acc =
  (ys ← similar_emit valid_nodes embeddings threshold i j; Ok (acc ++ ys)).
Proof.
  unfold similar_step, similar_emit.
  destruct (getitem embeddings i); simpl; [|reflexivity].
  destruct (getitem embeddings j); simpl; [|reflexivity].
  destruct (cosine_similarity _ _) as [sim|]; simpl; [|reflexivity].
  destruct (gt sim threshold); simpl; [|by rewrite app_nil_r].
  destruct (node_id valid_nodes i); simpl; [|reflexivity].
  destruct (node_id valid_nodes j); simpl; reflexivity.
Qed.

Lemma keyword_pair_step_emit order valid_nodes (tfidf_matrix : list (list num))
    keywords keyword_threshold i j (acc : list KeywordPair) :
  keyword_pair_step order valid_nodes tfidf_matrix keywords keyword_threshold i j acc =
  (ys ← keyword_emit order valid_nodes tfidf_matrix keywords keyword_threshold i j;
   Ok (acc ++ ys)).
Proof.
  unfold keyword_pair_step, keyword_emit, keyword_set.
  destruct (getitem tfidf_matrix i); simpl; [|reflexivity].
  destruct (getitem tfidf_matrix j); simpl; [|reflexivity].
  destruct (for_each _ _ _) as [S|]; simpl; [|reflexivity].
  destruct (bool_decide (S ≠ ∅)); simpl; [|by rewrite app_nil_r].
  destruct (node_id valid_nodes i); simpl; [|reflexivity].
  destruct (node_id valid_nodes j); simpl; reflexivity.
Qed.

(** The engine returns exactly when every stage returns, and its four
    collections are then the concatenations of what the stages produce. *)
Lemma vectorize_Ok order nodes threshold keyword_threshold sp kp cp hp :
  vectorize_and_find_similar order nodes threshold keyword_threshold =
    Ok (sp, kp, cp, hp) ↔
  ∃ embeddings tfidf_matrix keywords sps kps,
    let valid_nodes := filter_nodes nodes in
    let contents := (λ node, dict_get node "content") <$> valid_nodes in
    encode contents = Ok embeddings ∧
    fit_transform contents = Ok (tfidf_matrix, keywords) ∧
    detect_causal_relationships contents = Ok cp ∧
    detect_hierarchical_relationships contents = Ok hp ∧
    map_result (λ p, similar_emit valid_nodes embeddings threshold p.1 p.2)
      (index_pairs (length valid_nodes)) = Ok sps ∧
    sp = concat sps ∧
    map_result
      (λ p, keyword_emit order valid_nodes tfidf_matrix keywords keyword_threshold p.1 p.2)
      (index_pairs (length valid_nodes)) = Ok kps ∧
    kp = concat kps.
Proof.
  unfold vectorize_and_find_similar. rewrite contents_of_valid. cbn [mbind result_bind].
  set (valid_nodes := filter_nodes nodes).
  set (contents := (λ node, dict_get node "content") <$> valid_nodes).
  cbv zeta. split.
  - intros (embeddings & He & Hr)%bind_Ok.
    apply bind_Ok in Hr as ([tfidf_matrix keywords] & Hf & Hr).
    apply bind_Ok in Hr as (cp' & Hc & Hr).
    apply bind_Ok in Hr as (hp' & Hh & Hr).
    apply bind_Ok in Hr as (sp' & Hs & Hr).
    apply bind_Ok in Hr as (kp' & Hk & [= <- <- <- <-]).
    cbn [fst snd] in *.
    rewrite (for_each_pair_emit (similar_emit valid_nodes embeddings threshold)) in Hs
      by apply similar_step_emit.
    rewrite (for_each_pair_emit
               (keyword_emit order valid_nodes tfidf_matrix keywords keyword_threshold))
      in Hk by apply keyword_pair_step_emit.
    apply bind_Ok in Hs as (sps & Hs & [= <-]).
    apply bind_Ok in Hk as (kps & Hk & [= <-]).
    by exists embeddings, tfidf_matrix, keywords, sps, kps.
  - intros (embeddings & tfidf_matrix & keywords & sps & kps &
            He & Hf & Hc & Hh & Hs & -> & Hk & ->).
    rewrite He, Hf, Hc, Hh. cbn [mbind result_bind fst snd].
    rewrite (for_each_pair_emit (similar_emit valid_nodes embeddings threshold))
      by apply similar_step_emit.
    rewrite (for_each_pair_emit
               (keyword_emit order valid_nodes tfidf_matrix keywords keyword_threshold))
      by apply keyword_pair_step_emit.
    rewrite Hs, Hk. reflexivity.
Qed.

Lemma getitem_Ok {A} (l : list A) (i : nat) (x : A) :
  getitem l i = Ok x ↔ l !! i = Some x.
Proof. unfold getitem. destruct (l !! i); split; congruence. Qed.

Lemma getitem2_Ok (tfidf_matrix : list (list num)) (i k : nat) (w : num) :
  getitem2 tfidf_matrix i k = Ok w ↔
  ∃ row, tfidf_matrix !! i = Some row ∧ row !! k = Some w.
Proof.
  unfold getitem2. rewrite bind_Ok. by setoid_rewrite getitem_Ok.
Qed.

Lemma similar_emit_length valid_nodes (embeddings : list embedding) threshold i j ys :
  similar_emit valid_nodes embeddings threshold i j = Ok ys → length ys ≤ 1.
Proof.
  unfold similar_emit.
  intros (ei & _ & (ej & _ & (sim & _ & Hr)%bind_Ok)%bind_Ok)%bind_Ok.
  destruct (gt sim threshold).
  - apply bind_Ok in Hr as (? & _ & (? & _ & [= <-])%bind_Ok). simpl. lia.
  - injection Hr as <-. simpl. lia.
Qed.

(** The entry of the pair [(i, j)]: the similarity of the two embeddings
    exceeds the threshold, and the ids are the declared ids at [i] and [j]. *)
Lemma similar_emit_one nodes (embeddings : list embedding) threshold i j e :
  similar_emit (filter_nodes nodes) embeddings threshold i j = Ok [e] ↔
  ∃ ei ej, embeddings !! i = Some ei ∧ embeddings !! j = Some ej ∧
    cosine_similarity ei ej = Ok (sp_similarity e) ∧
    gt (sp_similarity e) threshold = true ∧
    rendered_id (filter_nodes nodes) i (sp_start_id e) ∧
    rendered_id (filter_nodes nodes) j (sp_end_id e).
Proof.
  unfold similar_emit. split.
  - intros (ei & Hi%getitem_Ok & (ej & Hj%getitem_Ok & (sim & Hs & Hr)%bind_Ok)%bind_Ok)%bind_Ok.
    destruct (gt sim threshold) eqn:Hgt; [|discriminate].
    apply bind_Ok in Hr as (a & Ha%node_id_valid & (b & Hb%node_id_valid & [= <-])%bind_Ok).
    by exists ei, ej.
  - intros (ei & ej & Hi%getitem_Ok & Hj%getitem_Ok & Hs & Hgt &
            Ha%node_id_valid & Hb%node_id_valid).
    rewrite Hi, Hj. cbn [mbind result_bind]. rewrite Hs. cbn [mbind result_bind].
    rewrite Hgt, Ha, Hb. by destruct e.
Qed.

Lemma elem_of_nonzero_columns (row : list num) (k : nat) :
  k ∈ nonzero_columns row ↔ ∃ w, row !! k = Some w ∧ nonzero w = true.
Proof.
  unfold nonzero_columns. rewrite list_elem_of_fmap. split.
  - intros ([k' w] & -> & [Hw%Is_true_true Hk%elem_of_enumerate]%list_elem_of_filter).
    by exists w.
  - intros (w & Hk & Hw). exists (k, w). split; [reflexivity|].
    apply list_elem_of_filter. split; [by apply Is_true_true | by apply elem_of_enumerate].
Qed.

Lemma keyword_step_spec (tfidf_matrix : list (list num)) keywords keyword_threshold
    i j k (acc acc' : gset string) :
  keyword_step tfidf_matrix keywords keyword_threshold i j k acc = Ok acc' →
  ∀ term, term ∈ acc' ↔
    term ∈ acc ∨
    ∃ wi wj, getitem2 tfidf_matrix i k = Ok wi ∧ getitem2 tfidf_matrix j k = Ok wj ∧
      gt wi keyword_threshold = true ∧ gt wj keyword_threshold = true ∧
      keywords !! k = Some term ∧ term ∉ stop_words.
Proof.
  unfold keyword_step. intros (wi & Hwi & Hr)%bind_Ok term.
  destruct (gt wi keyword_threshold) eqn:Hgi.
  2: { injection Hr as <-. split; [tauto|]. intros [?|(?&?&?&?&?&?)]; [done | congruence]. }
  apply bind_Ok in Hr as (wj & Hwj & Hr).
  destruct (gt wj keyword_threshold) eqn:Hgj.
  2: { injection Hr as <-. split; [tauto|]. intros [?|(?&?&?&?&?&?&?)]; [done | congruence]. }
  apply bind_Ok in Hr as (t & Ht%getitem_Ok & Hr).
  destruct (bool_decide (t ∈ stop_words)) eqn:Hstop.
  - injection Hr as <-. apply bool_decide_eq_true in Hstop. split; [tauto|].
    intros [?|(?&?&?&?&?&?&?&?)]; [done | congruence].
  - injection Hr as <-. apply bool_decide_eq_false in Hstop.
    rewrite elem_of_union, elem_of_singleton. split.
    + intros [->|?]; [right | by left]. by exists wi, wj.
    + intros [?|(?&?&?&?&?&?&?&?)]; [by right | left; congruence].
Qed.

Lemma keyword_steps_spec (tfidf_matrix : list (list num)) keywords keyword_threshold
    i j (ks : list nat) (acc S : gset string) :
  for_each ks (keyword_step tfidf_matrix keywords keyword_threshold i j) acc = Ok S →
  ∀ term, term ∈ S ↔
    term ∈ acc ∨
    ∃ k wi wj, k ∈ ks ∧
      getitem2 tfidf_matrix i k = Ok wi ∧ getitem2 tfidf_matrix j k = Ok wj ∧
      gt wi keyword_threshold = true ∧ gt wj keyword_threshold = true ∧
      keywords !! k = Some term ∧ term ∉ stop_words.
Proof.
  revert acc. induction ks as [|k ks IH]; intros acc; simpl.
  - intros [= <-] term. split; [tauto|]. intros [?|(?&?&?&Hk&_)]; [done | inversion Hk].
  - intros (acc' & Hstep & Hrest)%bind_Ok term.
    rewrite (IH _ Hrest), (keyword_step_spec _ _ _ _ _ _ _ _ Hstep). split.
    + intros [[?|(wi & wj & ?)]|(k' & wi & wj & ? & ?)].
      * by left.
      * right. exists k, wi, wj. split; [left | done].
      * right. exists k', wi, wj. split; [by right | done].
    + intros [?|(k' & wi & wj & [->|?]%elem_of_cons & ?)].
      * by left; left.
      * left; right. by exists wi, wj.
      * right. by exists k', wi, wj.
Qed.

(** The set built by the comprehension is the set the specification
    describes. *)
Lemma keyword_set_spec (tfidf_matrix : list (list num)) keywords keyword_threshold
    i j (S : gset string) :
  keyword_set tfidf_matrix keywords keyword_threshold i j = Ok S →
  ∀ term, term ∈ S ↔ shared_keyword tfidf_matrix keywords keyword_threshold i j term.
Proof.
  unfold keyword_set.
  intros (row_i & Hi%getitem_Ok & (row_j & Hj%getitem_Ok & Hloop)%bind_Ok)%bind_Ok term.
  rewrite (keyword_steps_spec _ _ _ _ _ _ _ _ Hloop). unfold shared_keyword.
  setoid_rewrite getitem2_Ok. split.
  - intros [[]%not_elem_of_empty|
            (k & wi & wj & Hk & (ri & Hri & Hwi) & (rj & Hrj & Hwj) & Hgi & Hgj & Ht & Hs)].
    assert (ri = row_i) as -> by congruence. assert (rj = row_j) as -> by congruence.
    apply elem_of_elements, elem_of_intersection in Hk as [Hki Hkj].
    rewrite elem_of_list_to_set in Hki, Hkj.
    apply elem_of_nonzero_columns in Hki as (wi' & Hwi' & Hni).
    apply elem_of_nonzero_columns in Hkj as (wj' & Hwj' & Hnj).
    assert (wi' = wi) as -> by congruence. assert (wj' = wj) as -> by congruence.
    by exists k, row_i, row_j, wi, wj.
  - intros (k & ri & rj & wi & wj & Hri & Hrj & Hwi & Hwj & Hni & Hnj & Hgi & Hgj & Ht & Hs).
    assert (ri = row_i) as -> by congruence. assert (rj = row_j) as -> by congruence.
    right. exists k, wi, wj. split.
    { apply elem_of_elements, elem_of_intersection.
      split; apply elem_of_list_to_set, elem_of_nonzero_columns; eauto. }
    eauto 10.
Qed.

Lemma keyword_emit_length order valid_nodes (tfidf_matrix : list (list num)) keywords
    keyword_threshold i j ys :
  keyword_emit order valid_nodes tfidf_matrix keywords keyword_threshold i j = Ok ys →
  length ys ≤ 1.
Proof.
  unfold keyword_emit. intros (S & _ & Hr)%bind_Ok.
  destruct (bool_decide (S ≠ ∅)).
  - apply bind_Ok in Hr as (? & _ & (? & _ & [= <-])%bind_Ok). simpl. lia.
  - injection Hr as <-. simpl. lia.
Qed.

Lemma keyword_emit_one order nodes (tfidf_matrix : list (list num)) keywords
    keyword_threshold i j p :
  keyword_emit order (filter_nodes nodes) tfidf_matrix keywords keyword_threshold i j
    = Ok [p] ↔
  ∃ S, keyword_set tfidf_matrix keywords keyword_threshold i j = Ok S ∧ S ≠ ∅ ∧
    rendered_id (filter_nodes nodes) i (kp_start_id p) ∧
    rendered_id (filter_nodes nodes) j (kp_end_id p) ∧
    kp_keywords p = order S.
Proof.
  unfold keyword_emit. split.
  - intros (S & HS & Hr)%bind_Ok.
    destruct (bool_decide (S ≠ ∅)) eqn:Hne; [|discriminate].
    apply bool_decide_eq_true in Hne.
    apply bind_Ok in Hr as (a & Ha%node_id_valid & (b & Hb%node_id_valid & [= <-])%bind_Ok).
    by exists S.
  - intros (S & HS & Hne & Ha%node_id_valid & Hb%node_id_valid & Hk).
    rewrite HS. cbn [mbind result_bind]. rewrite bool_decide_eq_true_2 by done.
    rewrite Ha, Hb. cbn [mbind result_bind]. rewrite <- Hk. by destruct p.
Qed.

Lemma keyword_emit_nil order valid_nodes (tfidf_matrix : list (list num)) keywords
    keyword_threshold i j :
  keyword_emit order valid_nodes tfidf_matrix keywords keyword_threshold i j = Ok [] →
  keyword_set tfidf_matrix keywords keyword_threshold i j = Ok ∅.
Proof.
  unfold keyword_emit. intros (S & HS & Hr)%bind_Ok.
  destruct (bool_decide (S ≠ ∅)) eqn:Hne.
  - apply bind_Ok in Hr as (? & _ & (? & _ & [=])%bind_Ok).
  - apply bool_decide_eq_false in Hne. apply dec_stable in Hne. by rewrite HS, Hne.
Qed.

(** The entries of [similar_pairs] correspond one to one, in order, to the
    index pairs whose similarity passes the threshold. *)
Lemma similar_pairs_selection order nodes threshold keyword_threshold sp kp cp hp :
  vectorize_and_find_similar order nodes threshold keyword_threshold =
    Ok (sp, kp, cp, hp) →
  ∃ embeddings ps,
    encode ((λ node, dict_get node "content") <$> filter_nodes nodes) = Ok embeddings ∧
    ps `sublist_of` index_pairs (length (filter_nodes nodes)) ∧
    Forall2 (λ p e, similar_emit (filter_nodes nodes) embeddings threshold p.1 p.2 = Ok [e])
      ps sp.
Proof.
  intros (embeddings & M & kw & sps & kps & He & _ & _ & _ & Hs & -> & _)%vectorize_Ok.
  destruct (select_singletons _ _ _ Hs) as (ps & Hsub & Hall & _).
  { intros [i j] ys. apply similar_emit_length. }
  by exists embeddings, ps.
Qed.

(** The same for [keyword_pairs], with the pairs that were left out. *)
Lemma keyword_pairs_selection order nodes threshold keyword_threshold sp kp cp hp :
  vectorize_and_find_similar order nodes threshold keyword_threshold =
    Ok (sp, kp, cp, hp) →
  ∃ tfidf_matrix keywords ps,
    fit_transform ((λ node, dict_get node "content") <$> filter_nodes nodes) =
      Ok (tfidf_matrix, keywords) ∧
    ps `sublist_of` index_pairs (length (filter_nodes nodes)) ∧
    Forall2 (λ p e, keyword_emit order (filter_nodes nodes) tfidf_matrix keywords
                      keyword_threshold p.1 p.2 = Ok [e]) ps kp ∧
    ∀ p, p ∈ index_pairs (length (filter_nodes nodes)) → p ∉ ps →
      keyword_set tfidf_matrix keywords keyword_threshold p.1 p.2 = Ok ∅.
Proof.
  intros (embeddings & M & kw & sps & kps & _ & Hf & _ & _ & _ & _ & Hk & ->)%vectorize_Ok.
  destruct (select_singletons _ _ _ Hk) as (ps & Hsub & Hall & Hin).
  { intros [i j] ys. apply keyword_emit_length. }
  exists M, kw, ps. split; [done|]. split; [done|]. split; [done|].
  intros p Hp Hnot.
  destruct (map_result_total _ _ _ _ Hk Hp) as (ys & Hys).
  pose proof (keyword_emit_length _ _ _ _ _ _ _ _ Hys) as Hlen.
  destruct ys as [|e [|]]; simpl in Hlen; try lia.
  - by eapply keyword_emit_nil.
  - destruct Hnot. by eapply Hin.
Qed.

Lemma rendered_id_elem nodes i s :
  rendered_id (filter_nodes nodes) i s →
  ∃ node, node ∈ filter_nodes nodes ∧ s = str (dict_get node "id").
Proof. intros (node & Hn%list_elem_of_lookup_2 & ->). eauto. Qed.

Lemma rendered_id_inj nodes i j s :
  NoDup ((λ node, str (dict_get node "id")) <$> filter_nodes nodes) →
  rendered_id (filter_nodes nodes) i s → rendered_id (filter_nodes nodes) j s → i = j.
Proof.
  intros Hnd (ni & Hi & ->) (nj & Hj & Heq).
  eapply NoDup_lookup; [exact Hnd | |]; rewrite list_lookup_fmap.
  - by rewrite Hi.
  - rewrite Hj. simpl. by rewrite Heq.
Qed.

(** C2, amended: the entries of [similar_pairs] correspond, in order, to
    index pairs [i < j] of the filtered list, each pair at most once, and
    the similarity of every entry strictly exceeds the threshold.  When the
    ids of the filtered nodes render to pairwise distinct strings, no entry
    has equal start and end ids and no two entries link the same unordered
    pair of ids. *)
Theorem similar_pairs_distinct order nodes threshold keyword_threshold sp kp cp hp :
  vectorize_and_find_similar order nodes threshold keyword_threshold =
    Ok (sp, kp, cp, hp) →
  ∃ embeddings ps,
    encode ((λ node, dict_get node "content") <$> filter_nodes nodes) = Ok embeddings ∧
    ps `sublist_of` index_pairs (length (filter_nodes nodes)) ∧
    NoDup ps ∧
    Forall2 (λ p e,
        p.1 < p.2 < length (filter_nodes nodes) ∧
        (∃ ei ej, embeddings !! p.1 = Some ei ∧ embeddings !! p.2 = Some ej ∧
           cosine_similarity ei ej = Ok (sp_similarity e)) ∧
        gt (sp_similarity e) threshold = true ∧
        rendered_id (filter_nodes nodes) p.1 (sp_start_id e) ∧
        rendered_id (filter_nodes nodes) p.2 (sp_end_id e))
      ps sp ∧
    (NoDup ((λ node, str (dict_get node "id")) <$> filter_nodes nodes) →
     (∀ e, e ∈ sp → sp_start_id e ≠ sp_end_id e) ∧
     (∀ a b ea eb, a ≠ b → sp !! a = Some ea → sp !! b = Some eb →
        ¬ same_unordered_pair ea eb)).
Proof.
  intros (embeddings & ps & He & Hsub & Hall)%similar_pairs_selection.
  assert (Hnd : NoDup ps) by (eapply sublist_NoDup; [apply NoDup_index_pairs | exact Hsub]).
  assert (Hall' : Forall2 (λ p e,
        p.1 < p.2 < length (filter_nodes nodes) ∧
        (∃ ei ej, embeddings !! p.1 = Some ei ∧ embeddings !! p.2 = Some ej ∧
           cosine_similarity ei ej = Ok (sp_similarity e)) ∧
        gt (sp_similarity e) threshold = true ∧
        rendered_id (filter_nodes nodes) p.1 (sp_start_id e) ∧
        rendered_id (filter_nodes nodes) p.2 (sp_end_id e)) ps sp).
  { apply Forall2_same_length_lookup. split; [by eapply Forall2_length|].
    intros k [i j] e Hp He'.
    pose proof (Forall2_lookup_lr _ _ _ _ _ _ Hall Hp He') as Hemit.
    apply similar_emit_one in Hemit as (ei & ej & ? & ? & ? & ? & ? & ?).
    split; [|by eauto 10].
    apply elem_of_index_pairs. eapply elem_of_sublist; [|exact Hsub].
    by eapply list_elem_of_lookup_2. }
  exists embeddings, ps. do 4 (split; [done|]). intros Hids. split.
  - intros e (k & Hk)%list_elem_of_lookup Heq.
    destruct (Forall2_lookup_r _ _ _ _ _ Hall' Hk) as ([i j] & _ & Hij & _ & _ & Hi & Hj).
    simpl in *. rewrite Heq in Hi.
    pose proof (rendered_id_inj _ _ _ _ Hids Hi Hj). lia.
  - intros a b ea eb Hab Ha Hb Hsame.
    destruct (Forall2_lookup_r _ _ _ _ _ Hall' Ha) as ([i j] & Hpa & Hij & _ & _ & Hi & Hj).
    destruct (Forall2_lookup_r _ _ _ _ _ Hall' Hb) as ([i' j'] & Hpb & Hij' & _ & _ & Hi' & Hj').
    simpl in *. destruct Hsame as [[Hs He']|[Hs He']].
    + rewrite Hs in Hi. rewrite He' in Hj.
      pose proof (rendered_id_inj _ _ _ _ Hids Hi Hi') as ->.
      pose proof (rendered_id_inj _ _ _ _ Hids Hj Hj') as ->.
      apply Hab. exact (NoDup_lookup _ _ _ _ Hnd Hpa Hpb).
    + rewrite Hs in Hi. rewrite He' in Hj.
      pose proof (rendered_id_inj _ _ _ _ Hids Hi Hj').
      pose proof (rendered_id_inj _ _ _ _ Hids Hj Hi'). lia.
Qed.

(** C7, amended: every start and end id of [similar_pairs] and of
    [keyword_pairs] is the rendering of the declared id of a node that the
    filter kept; the id of a dropped node appears only when it renders to the
    same string as the id of a kept node. *)
Theorem pair_ids_from_kept_nodes order nodes threshold keyword_threshold sp kp cp hp :
  vectorize_and_find_similar order nodes threshold keyword_threshold =
    Ok (sp, kp, cp, hp) →
  let kept (s : string) :=
    ∃ node, node ∈ nodes ∧ truthy (dict_get node "content") = true ∧
      truthy (dict_get node "id") = true ∧ s = str (dict_get node "id") in
  (∀ e, e ∈ sp → kept (sp_start_id e) ∧ kept (sp_end_id e)) ∧
  (∀ p, p ∈ kp → kept (kp_start_id p) ∧ kept (kp_end_id p)) ∧
  (∀ dropped, dropped ∈ nodes → ¬ is_valid dropped →
     (∀ node, node ∈ filter_nodes nodes →
        str (dict_get node "id") ≠ str (dict_get dropped "id")) →
     (∀ e, e ∈ sp → sp_start_id e ≠ str (dict_get dropped "id") ∧
                    sp_end_id e ≠ str (dict_get dropped "id")) ∧
     (∀ p, p ∈ kp → kp_start_id p ≠ str (dict_get dropped "id") ∧
                    kp_end_id p ≠ str (dict_get dropped "id"))).
Proof.
  intros Hrun kept.
  assert (Hkept : ∀ i s, rendered_id (filter_nodes nodes) i s →
            ∃ node, node ∈ filter_nodes nodes ∧ s = str (dict_get node "id") ∧ kept s).
  { intros i s (node & Hn & ->)%rendered_id_elem. exists node. do 2 (split; [done|]).
    unfold filter_nodes in Hn.
    apply list_elem_of_filter in Hn as [[? ?]%is_valid_true ?]. by exists node. }
  assert (Hsp : ∀ e, e ∈ sp →
            ∃ i j, rendered_id (filter_nodes nodes) i (sp_start_id e) ∧
                   rendered_id (filter_nodes nodes) j (sp_end_id e)).
  { destruct (similar_pairs_selection _ _ _ _ _ _ _ _ Hrun) as (embs & ps & _ & _ & Hall).
    intros e (k & Hk)%list_elem_of_lookup.
    destruct (Forall2_lookup_r _ _ _ _ _ Hall Hk) as ([i j] & _ & Hemit).
    apply similar_emit_one in Hemit as (? & ? & _ & _ & _ & _ & ? & ?). eauto. }
  assert (Hkp : ∀ p, p ∈ kp →
            ∃ i j, rendered_id (filter_nodes nodes) i (kp_start_id p) ∧
                   rendered_id (filter_nodes nodes) j (kp_end_id p)).
  { destruct (keyword_pairs_selection _ _ _ _ _ _ _ _ Hrun) as (M & kw & ps & _ & _ & Hall & _).
    intros p (k & Hk)%list_elem_of_lookup.
    destruct (Forall2_lookup_r _ _ _ _ _ Hall Hk) as ([i j] & _ & Hemit).
    apply keyword_emit_one in Hemit as (? & _ & _ & ? & ? & _). eauto. }
  split; [|split].
  - intros e (i & j & (? & ? & ? & ?)%Hkept & (? & ? & ? & ?)%Hkept)%Hsp. done.
  - intros p (i & j & (? & ? & ? & ?)%Hkept & (? & ? & ? & ?)%Hkept)%Hkp. done.
  - intros dropped _ _ Hfresh. split.
    + intros e (i & j & (n1 & Hn1 & He1 & _)%Hkept & (n2 & Hn2 & He2 & _)%Hkept)%Hsp.
      rewrite He1, He2. split; by apply Hfresh.
    + intros p (i & j & (n1 & Hn1 & He1 & _)%Hkept & (n2 & Hn2 & He2 & _)%Hkept)%Hkp.
      rewrite He1, He2. split; by apply Hfresh.
Qed.

(** C6: no keyword of a keyword pair is a stopword. *)
Theorem keywords_exclude_stopwords order nodes threshold keyword_threshold sp kp cp hp :
  vectorize_and_find_similar order nodes threshold keyword_threshold =
    Ok (sp, kp, cp, hp) →
  ∀ p term, p ∈ kp → term ∈ kp_keywords p → term ∉ stop_words.
Proof.
  intros (M & kw & ps & _ & _ & Hall & _)%keyword_pairs_selection p term
         (k & Hk)%list_elem_of_lookup Hterm.
  destruct (Forall2_lookup_r _ _ _ _ _ Hall Hk) as ([i j] & _ & Hemit).
  apply keyword_emit_one in Hemit as (S & HS & _ & _ & _ & Hkw).
  rewrite Hkw, (listing_perm order S), elem_of_elements in Hterm.
  apply (keyword_set_spec _ _ _ _ _ _ HS) in Hterm.
  by destruct Hterm as (?&?&?&?&?&?&?&?&?&?&?&?&?&?&?).
Qed.

(** C5: the entries of [keyword_pairs] correspond, in order, to the index
    pairs [i < j] of the filtered list for which some vocabulary term has a
    weight that is not zero and exceeds the keyword threshold in both rows
    and is not a stopword; the keywords of the entry of a pair are exactly
    those terms, each once, and its ids are the declared ids at [i] and [j]. *)
Theorem keyword_pair_iff_shared_terms order nodes threshold keyword_threshold
    sp kp cp hp :
  vectorize_and_find_similar order nodes threshold keyword_threshold =
    Ok (sp, kp, cp, hp) →
  ∃ tfidf_matrix keywords ps,
    fit_transform ((λ node, dict_get node "content") <$> filter_nodes nodes) =
      Ok (tfidf_matrix, keywords) ∧
    ps `sublist_of` index_pairs (length (filter_nodes nodes)) ∧
    (∀ i j, i < j < length (filter_nodes nodes) →
       (i, j) ∈ ps ↔
       ∃ term, shared_keyword tfidf_matrix keywords keyword_threshold i j term) ∧
    Forall2 (λ p e,
        rendered_id (filter_nodes nodes) p.1 (kp_start_id e) ∧
        rendered_id (filter_nodes nodes) p.2 (kp_end_id e) ∧
        NoDup (kp_keywords e) ∧
        ∀ term, term ∈ kp_keywords e ↔
          shared_keyword tfidf_matrix keywords keyword_threshold p.1 p.2 term)
      ps kp.
Proof.
  intros (M & kw & ps & Hf & Hsub & Hall & Hout)%keyword_pairs_selection.
  exists M, kw, ps. do 2 (split; [done|]). split.
  - intros i j Hij%elem_of_index_pairs. split.
    + intros (k & Hk)%list_elem_of_lookup.
      destruct (Forall2_lookup_l _ _ _ _ _ Hall Hk) as (e & _ & Hemit).
      apply keyword_emit_one in Hemit as (S & HS & Hne & _).
      apply set_choose_L in Hne as (term & Hterm). exists term.
      by apply (keyword_set_spec _ _ _ _ _ _ HS).
    + intros (term & Hterm). destruct (decide ((i, j) ∈ ps)) as [|Hnot]; [done|].
      pose proof (Hout _ Hij Hnot) as HS.
      apply (keyword_set_spec _ _ _ _ _ _ HS) in Hterm. set_solver.
  - eapply Forall2_impl; [exact Hall|]. intros [i j] e Hemit.
    apply keyword_emit_one in Hemit as (S & HS & _ & Hi & Hj & Hkw).
    do 2 (split; [done|]). rewrite Hkw. split.
    + rewrite (listing_perm order S). apply NoDup_elements.
    + intros term. rewrite (listing_perm order S), elem_of_elements.
      by apply keyword_set_spec.
Qed.

(** C3: the id of every causal match and of every hierarchical match is the
    position of its content in the filtered list, rendered as a string;
    the start and end ids of the similarity and keyword pairs are the
    rendered declared ids of the nodes at the positions of the pair. *)
Theorem detector_ids_are_positions order nodes threshold keyword_threshold
    sp kp cp hp :
  vectorize_and_find_similar order nodes threshold keyword_threshold =
    Ok (sp, kp, cp, hp) →
  let contents := (λ node, dict_get node "content") <$> filter_nodes nodes in
  (∀ m, m ∈ cp →
     ∃ idx, contents !! idx = Some (cm_context m) ∧ cm_id m = str (PyInt (Z.of_nat idx))) ∧
  (∀ m, m ∈ hp →
     ∃ idx, contents !! idx = Some (hm_heading m) ∧ hm_id m = str (PyInt (Z.of_nat idx))) ∧
  (∀ e, e ∈ sp →
     ∃ i j ni nj, filter_nodes nodes !! i = Some ni ∧ filter_nodes nodes !! j = Some nj ∧
       sp_start_id e = str (dict_get ni "id") ∧ sp_end_id e = str (dict_get nj "id")) ∧
  (∀ p, p ∈ kp →
     ∃ i j ni nj, filter_nodes nodes !! i = Some ni ∧ filter_nodes nodes !! j = Some nj ∧
       kp_start_id p = str (dict_get ni "id") ∧ kp_end_id p = str (dict_get nj "id")).
Proof.
  intros Hrun contents.
  pose proof Hrun as (embs & M & kw & sps & kps & _ & _ & Hc & Hh & _)%vectorize_Ok.
  split; [|split; [|split]].
  - intros m Hm. destruct (detect_causal_elem _ _ _ Hc Hm) as (idx & ? & ? & _). eauto.
  - intros m Hm. by apply (detect_hierarchical_elem _ _ _ Hh).
  - destruct (similar_pairs_selection _ _ _ _ _ _ _ _ Hrun) as (? & ps & _ & _ & Hall).
    intros e (k & Hk)%list_elem_of_lookup.
    destruct (Forall2_lookup_r _ _ _ _ _ Hall Hk) as ([i j] & _ & Hemit).
    apply similar_emit_one in Hemit as (? & ? & _ & _ & _ & _ & (ni & ? & ?) & (nj & ? & ?)).
    by exists i, j, ni, nj.
  - destruct (keyword_pairs_selection _ _ _ _ _ _ _ _ Hrun) as (? & ? & ps & _ & _ & Hall & _).
    intros p (k & Hk)%list_elem_of_lookup.
    destruct (Forall2_lookup_r _ _ _ _ _ Hall Hk) as ([i j] & _ & Hemit).
    apply keyword_emit_one in Hemit as (? & _ & _ & (ni & ? & ?) & (nj & ? & ?) & _).
    by exists i, j, ni, nj.
Qed.

Lemma index_pairs_few (n : nat) : n ≤ 1 → index_pairs n = [].
Proof. intros Hn. destruct n as [|[|n]]; [reflexivity | reflexivity | lia]. Qed.

(** C1, amended: with zero or one valid node, [similar_pairs] and
    [keyword_pairs] are empty whenever the engine returns, and with zero
    valid nodes [causal_pairs] and [hierarchical_pairs] are empty too; the
    engine returns whenever the encoder and the vectorizer return and the
    contents are strings.  With one valid node the causal and hierarchical
    collections hold the matches of that node. *)
Theorem few_nodes_no_pairs order nodes threshold keyword_threshold :
  length (filter_nodes nodes) ≤ 1 →
  let contents := (λ node, dict_get node "content") <$> filter_nodes nodes in
  (∀ sp kp cp hp,
     vectorize_and_find_similar order nodes threshold keyword_threshold =
       Ok (sp, kp, cp, hp) →
     sp = [] ∧ kp = [] ∧ (filter_nodes nodes = [] → cp = [] ∧ hp = [])) ∧
  (∀ embeddings tfidf ss,
     encode contents = Ok embeddings → fit_transform contents = Ok tfidf →
     contents = PyStr <$> ss →
     vectorize_and_find_similar order nodes threshold keyword_threshold =
       Ok ([], [], concat (imap causal_matches ss), concat (imap hierarchical_matches ss))).
Proof.
  intros Hfew contents. split.
  - intros sp kp cp hp
      (embs & M & kw & sps & kps & _ & _ & Hc & Hh & Hs & -> & Hk & ->)%vectorize_Ok.
    rewrite index_pairs_few in Hs, Hk by done.
    injection Hs as <-. injection Hk as <-. do 2 (split; [reflexivity|]).
    intros Hnil. rewrite Hnil in Hc, Hh. by injection Hc as <-; injection Hh as <-.
  - intros embeddings [M kw] ss He Hf Hss. apply vectorize_Ok.
    exists embeddings, M, kw, [], []. cbv zeta. fold contents.
    rewrite index_pairs_few by done. rewrite He, Hf, Hss.
    by rewrite detect_causal_strings, detect_hierarchical_strings.
Qed.

Lemma kp_view_listing order1 order2 (a b : string) (S : gset string) :
  kp_view {| kp_start_id := a; kp_end_id := b; kp_keywords := order1 S |} =
  kp_view {| kp_start_id := a; kp_end_id := b; kp_keywords := order2 S |}.
Proof.
  unfold kp_view. simpl. f_equal. apply set_eq. intros x.
  by rewrite !elem_of_list_to_set, !listing_perm.
Qed.

Lemma keyword_emit_agree order1 order2 valid_nodes (tfidf_matrix : list (list num))
    keywords keyword_threshold i j :
  agree (λ ys1 ys2, kp_view <$> ys1 = kp_view <$> ys2)
    (keyword_emit order1 valid_nodes tfidf_matrix keywords keyword_threshold i j)
    (keyword_emit order2 valid_nodes tfidf_matrix keywords keyword_threshold i j).
Proof.
  unfold keyword_emit.
  destruct (keyword_set _ _ _ _ _) as [S|]; simpl; [|reflexivity].
  destruct (bool_decide (S ≠ ∅)); simpl; [|reflexivity].
  destruct (node_id valid_nodes i); simpl; [|reflexivity].
  destruct (node_id valid_nodes j); simpl; [|reflexivity].
  by rewrite (kp_view_listing order1 order2).
Qed.

(** C9: two runs on the same nodes with the same thresholds and the same
    collaborator outputs, whatever the order in which each run lists its
    keyword sets, either both raise the same exception or both return, with
    the same similarity pairs, causal matches and hierarchical matches and
    the same keyword pairs, the keywords taken as sets. *)
Theorem runs_agree order1 order2 nodes threshold keyword_threshold :
  agree same_relationships
    (vectorize_and_find_similar order1 nodes threshold keyword_threshold)
    (vectorize_and_find_similar order2 nodes threshold keyword_threshold).
Proof.
  unfold vectorize_and_find_similar. rewrite contents_of_valid. cbn [mbind result_bind].
  set (valid_nodes := filter_nodes nodes).
  set (contents := (λ node, dict_get node "content") <$> valid_nodes).
  destruct (encode contents) as [embeddings|]; simpl; [|reflexivity].
  destruct (fit_transform contents) as [[M kw]|]; simpl; [|reflexivity].
  destruct (detect_causal_relationships contents) as [cp|]; simpl; [|reflexivity].
  destruct (detect_hierarchical_relationships contents) as [hp|]; simpl; [|reflexivity].
  destruct (for_each_pair _ (similar_step _ _ _) _) as [sp|]; simpl; [|reflexivity].
  rewrite !(for_each_pair_emit (keyword_emit _ valid_nodes M kw keyword_threshold))
    by apply keyword_pair_step_emit.
  pose proof (map_result_agree (λ ys1 ys2, kp_view <$> ys1 = kp_view <$> ys2)
    (λ p, keyword_emit order1 valid_nodes M kw keyword_threshold p.1 p.2)
    (λ p, keyword_emit order2 valid_nodes M kw keyword_threshold p.1 p.2)
    (index_pairs (length valid_nodes))
    (λ p, keyword_emit_agree order1 order2 valid_nodes M kw keyword_threshold p.1 p.2))
    as Hagree.
  destruct (map_result _ _) as [kps1|], (map_result _ _) as [kps2|]; simpl in *; try done.
  split; [reflexivity|]. split; [|done].
  induction Hagree as [|ys1 ys2 kps1 kps2 Hys _ IH]; [reflexivity|].
  simpl. by rewrite !fmap_app, Hys, IH.
Qed.

End EngineProofs.

(** ** The theorems at concrete inputs *)

Lemma similar_pairs_distinct_witness :
  vectorize_and_find_similar canonical_listing sales_nodes 80%Z 20%Z = Ok sales_output ∧
  NoDup ((λ node, str (dict_get node "id")) <$> filter_nodes sales_nodes) ∧
  ∀ e, e ∈ sales_output.1.1.1 → sp_start_id e ≠ sp_end_id e.
Proof.
  split; [vm_compute; reflexivity|].
  assert (Hids : NoDup ((λ node, str (dict_get node "id")) <$> filter_nodes sales_nodes))
    by (apply (bool_decide_unpack _); vm_compute; exact I).
  split; [exact Hids|].
  destruct (similar_pairs_distinct (collab := toy) canonical_listing sales_nodes 80%Z 20%Z
              sales_output.1.1.1 sales_output.1.1.2 sales_output.1.2 sales_output.2)
    as (embeddings & ps & _ & _ & _ & _ & Hdistinct); [vm_compute; reflexivity|].
  exact (proj1 (Hdistinct Hids)).
Defined.

Lemma pair_ids_from_kept_nodes_witness :
  vectorize_and_find_similar canonical_listing sales_nodes 80%Z 20%Z = Ok sales_output ∧
  ∀ e, e ∈ sales_output.1.1.1 →
    ∃ node, node ∈ sales_nodes ∧ truthy (dict_get node "content") = true ∧
      truthy (dict_get node "id") = true ∧ sp_start_id e = str (dict_get node "id").
Proof.
  split; [vm_compute; reflexivity|].
  intros e He.
  exact (proj1 (proj1 (pair_ids_from_kept_nodes (collab := toy) canonical_listing sales_nodes 80%Z 20%Z
           sales_output.1.1.1 sales_output.1.1.2 sales_output.1.2 sales_output.2
           ltac:(vm_compute; reflexivity)) e He)).
Defined.

Lemma keywords_exclude_stopwords_witness :
  vectorize_and_find_similar canonical_listing sales_nodes 80%Z 20%Z = Ok sales_output ∧
  ∀ p term, p ∈ sales_output.1.1.2 → term ∈ kp_keywords p → term ∉ stop_words.
Proof.
  split; [vm_compute; reflexivity|].
  apply (keywords_exclude_stopwords (collab := toy) canonical_listing sales_nodes 80%Z 20%Z
           sales_output.1.1.1 sales_output.1.1.2 sales_output.1.2 sales_output.2).
  vm_compute; reflexivity.
Defined.

Lemma keyword_pair_iff_shared_terms_witness :
  vectorize_and_find_similar canonical_listing sales_nodes 80%Z 20%Z = Ok sales_output ∧
  ∃ tfidf_matrix keywords ps,
    fit_transform ((λ node, dict_get node "content") <$> filter_nodes sales_nodes) =
      Ok (tfidf_matrix, keywords) ∧
    ps `sublist_of` index_pairs (length (filter_nodes sales_nodes)) ∧
    (∀ i j, i < j < length (filter_nodes sales_nodes) →
       (i, j) ∈ ps ↔ ∃ term, shared_keyword tfidf_matrix keywords 20%Z i j term) ∧
    Forall2 (λ p e,
        rendered_id (filter_nodes sales_nodes) p.1 (kp_start_id e) ∧
        rendered_id (filter_nodes sales_nodes) p.2 (kp_end_id e) ∧
        NoDup (kp_keywords e) ∧
        ∀ term, term ∈ kp_keywords e ↔ shared_keyword tfidf_matrix keywords 20%Z p.1 p.2 term)
      ps sales_output.1.1.2.
Proof.
  split; [vm_compute; reflexivity|].
  apply (keyword_pair_iff_shared_terms (collab := toy) canonical_listing sales_nodes 80%Z 20%Z
           sales_output.1.1.1 sales_output.1.1.2 sales_output.1.2 sales_output.2).
  vm_compute; reflexivity.
Defined.

Lemma detector_ids_are_positions_witness :
  vectorize_and_find_similar canonical_listing sales_nodes 80%Z 20%Z = Ok sales_output ∧
  ∀ m, m ∈ sales_output.1.2 →
    ∃ idx, ((λ node, dict_get node "content") <$> filter_nodes sales_nodes) !! idx =
             Some (cm_context m) ∧
           cm_id m = str (PyInt (Z.of_nat idx)).
Proof.
  split; [vm_compute; reflexivity|].
  exact (proj1 (detector_ids_are_positions (collab := toy) canonical_listing sales_nodes 80%Z 20%Z
           sales_output.1.1.1 sales_output.1.1.2 sales_output.1.2 sales_output.2
           ltac:(vm_compute; reflexivity))).
Defined.

Lemma few_nodes_no_pairs_witness :
  length (filter_nodes single_node) ≤ 1 ∧
  ∀ sp kp cp hp,
    vectorize_and_find_similar canonical_listing single_node 80%Z 20%Z =
      Ok (sp, kp, cp, hp) →
    sp = [] ∧ kp = [] ∧ (filter_nodes single_node = [] → cp = [] ∧ hp = []).
Proof.
  split; [vm_compute; lia|].
  apply (few_nodes_no_pairs (collab := toy) canonical_listing single_node 80%Z 20%Z).
  vm_compute; lia.
Defined.

(** ** Inputs on which the statements of the specification fail *)

(** C1: one valid node whose content holds a causal phrase and looks like a
    heading gives a causal match and a hierarchical match. *)
Lemma single_node_has_matches :
  length (filter_nodes single_node) = 1 ∧
  vectorize_and_find_similar canonical_listing single_node 80%Z 20%Z =
    Ok ([], [],
        [ {| cm_id := "0"; cm_phrase := "because";
             cm_context := PyStr "1. It failed because of a bug." |} ],
        [ {| hm_id := "0"; hm_heading := PyStr "1. It failed because of a bug." |} ]) ∧
  ¬ (∀ (C : Collaborators) (order : set_listing) nodes (threshold keyword_threshold : num),
       length (filter_nodes nodes) ≤ 1 →
       vectorize_and_find_similar order nodes threshold keyword_threshold =
         Ok ([], [], [], [])).
Proof.
  split; [reflexivity|]. split; [vm_compute; reflexivity|].
  intros Hclaim.
  specialize (Hclaim toy canonical_listing single_node 80%Z 20%Z ltac:(vm_compute; lia)).
  vm_compute in Hclaim. discriminate.
Qed.

(** C2: the ids [1] and ["1"] of two valid nodes render to the same string:
    an entry has equal start and end ids, and two entries link the same
    unordered pair. *)
Lemma twin_ids_collide :
  Forall (λ node, is_valid node) twin_nodes ∧
  ∃ sp kp cp hp ea eb ec,
    vectorize_and_find_similar canonical_listing twin_nodes 80%Z 20%Z =
      Ok (sp, kp, cp, hp) ∧
    sp !! 0 = Some ea ∧ sp !! 1 = Some eb ∧ sp !! 2 = Some ec ∧
    sp_start_id eb = sp_end_id eb ∧
    same_unordered_pair ea ec.
Proof.
  split; [repeat constructor|].
  eexists _, _, _, _, _, _, _. split; [vm_compute; reflexivity|].
  do 3 (split; [reflexivity|]). split; [reflexivity|]. right. split; reflexivity.
Qed.

(** C7: the id of a dropped node appears in [similar_pairs], as the id of a
    kept node. *)
Lemma dropped_id_appears :
  ∃ dropped sp kp cp hp e,
    shadow_nodes !! 0 = Some dropped ∧ is_valid dropped = false ∧
    vectorize_and_find_similar canonical_listing shadow_nodes 80%Z 20%Z =
      Ok (sp, kp, cp, hp) ∧
    e ∈ sp ∧ sp_start_id e = str (dict_get dropped "id").
Proof.
  eexists _, _, _, _, _, _. split; [reflexivity|]. split; [vm_compute; reflexivity|].
  split; [vm_compute; reflexivity|]. split; [left | reflexivity].
Qed.

(** * Further properties *)

(** ** The matcher and the heading patterns *)

Lemma string_app_nil_r (s : string) : s +:+ "" = s.
Proof.
  induction s as [|c s IH]; [reflexivity|].
  change (String c (s +:+ "") = String c s). by rewrite IH.
Qed.

















(** ** Error behaviour of the detectors *)

Lemma map_result_Raise {A B} (f : A → result B) (xs : list A) (e : exn) :
  map_result f xs = Raise e → ∃ x, x ∈ xs ∧ f x = Raise e.
Proof.
  induction xs as [|x xs IH]; simpl; [discriminate|].
  destruct (f x) as [y|e'] eqn:Hx; simpl.
  - destruct (map_result f xs) as [ys|e'']; simpl; [discriminate|].
    intros [= ->]. destruct IH as (x' & ? & ?); [reflexivity|].
    exists x'. split; [by right | done].
  - intros [= ->]. exists x. split; [left | done].
Qed.


Lemma causal_emit_Ok (item : nat * pyval) (ys : list CausalMatch) :
  causal_emit item = Ok ys → is_str item.2.
Proof.
  unfold causal_emit, causal_phrases. simpl.
  destruct item as [idx [| | |s]]; simpl; try discriminate. intros _. by exists s.
Qed.

Lemma causal_emit_Raise (item : nat * pyval) (e : exn) :
  causal_emit item = Raise e → e = AttributeError ∧ ¬ is_str item.2.
Proof.
  destruct item as [idx [| | |s]]; simpl.
  4: { by rewrite causal_emit_str. }
  all: unfold causal_emit, causal_phrases; simpl; intros [= <-];
    split; [reflexivity | intros (s & [=])].
Qed.

Lemma hierarchical_emit_Ok (item : nat * pyval) (ys : list HierarchicalMatch) :
  hierarchical_emit item = Ok ys → is_str item.2.
Proof.
  unfold hierarchical_emit, heading_patterns. simpl.
  destruct item as [idx [| | |s]]; simpl; try discriminate. intros _. by exists s.
Qed.

Lemma hierarchical_emit_Raise (item : nat * pyval) (e : exn) :
  hierarchical_emit item = Raise e → e = TypeError ∧ ¬ is_str item.2.
Proof.
  destruct item as [idx [| | |s]]; simpl.
  4: { by rewrite hierarchical_emit_str. }
  all: unfold hierarchical_emit, heading_patterns; simpl; intros [= <-];
    split; [reflexivity | intros (s & [=])].
Qed.

Lemma detect_causal_Ok_strings (contents : list pyval) (out : list CausalMatch) :
  detect_causal_relationships contents = Ok out → Forall is_str contents.
Proof.
  rewrite detect_causal_unfold. intros (yss & Hmap & _)%bind_Ok.
  apply Forall_forall. intros c (idx & Hc)%list_elem_of_lookup.
  apply elem_of_enumerate in Hc.
  destruct (map_result_total _ _ _ _ Hmap Hc) as (ys & Hys).
  exact (causal_emit_Ok _ _ Hys).
Qed.

(** X2: the causal detector returns exactly when every content is a string;
    otherwise it raises [AttributeError], the exception of [content.lower()]
    on a value that is not a string. *)
Theorem causal_detector_raises_iff_non_string (contents : list pyval) :
  match detect_causal_relationships contents with
  | Ok _ => Forall is_str contents
  | Raise e => e = AttributeError ∧ Exists (λ c, ¬ is_str c) contents
  end.
Proof.
  rewrite detect_causal_unfold.
  destruct (map_result causal_emit (enumerate contents)) as [yss|e] eqn:Hmap; simpl.
  - apply Forall_forall. intros c (idx & Hc)%list_elem_of_lookup.
    apply elem_of_enumerate in Hc.
    destruct (map_result_total _ _ _ _ Hmap Hc) as (ys & Hys).
    exact (causal_emit_Ok _ _ Hys).
  - apply map_result_Raise in Hmap as ([idx c] & Hc%elem_of_enumerate & He).
    apply causal_emit_Raise in He as [-> Hns]. split; [reflexivity|].
    apply Exists_exists. exists c. split; [by eapply list_elem_of_lookup_2 | done].
Qed.

(** X3: the hierarchical detector returns exactly when every content is a
    string; otherwise it raises [TypeError], the exception of
    [pattern.match] on a value that is not a string. *)
Theorem hierarchical_detector_raises_iff_non_string (contents : list pyval) :
  match detect_hierarchical_relationships contents with
  | Ok _ => Forall is_str contents
  | Raise e => e = TypeError ∧ Exists (λ c, ¬ is_str c) contents
  end.
Proof.
  rewrite detect_hierarchical_unfold.
  destruct (map_result hierarchical_emit (enumerate contents)) as [yss|e] eqn:Hmap; simpl.
  - apply Forall_forall. intros c (idx & Hc)%list_elem_of_lookup.
    apply elem_of_enumerate in Hc.
    destruct (map_result_total _ _ _ _ Hmap Hc) as (ys & Hys).
    exact (hierarchical_emit_Ok _ _ Hys).
  - apply map_result_Raise in Hmap as ([idx c] & Hc%elem_of_enumerate & He).
    apply hierarchical_emit_Raise in He as [-> Hns]. split; [reflexivity|].
    apply Exists_exists. exists c. split; [by eapply list_elem_of_lookup_2 | done].
Qed.

(** ** Case, positions and sizes in the detectors *)

Lemma lower_char_idemp (c : ascii) : lower_char (lower_char c) = lower_char c.
Proof.
  destruct c as [[] [] [] [] [] [] [] []]; vm_compute; reflexivity.
Qed.

Lemma lower_idemp (s : string) : lower (lower s) = lower s.
Proof.
  induction s as [|c s IH]; simpl; [reflexivity|]. by rewrite lower_char_idemp, IH.
Qed.

(** X4: the causal detector ignores the case of the contents: on the
    lowered contents it finds the same phrases at the same positions. *)
Theorem causal_detector_ignores_case (contents : list string) :
  ∃ out out',
    detect_causal_relationships (PyStr <$> contents) = Ok out ∧
    detect_causal_relationships (PyStr <$> (lower <$> contents)) = Ok out' ∧
    (λ m, (cm_id m, cm_phrase m)) <$> out = (λ m, (cm_id m, cm_phrase m)) <$> out'.
Proof.
  exists (concat (imap causal_matches contents)),
         (concat (imap causal_matches (lower <$> contents))).
  split; [apply detect_causal_strings|]. split; [apply detect_causal_strings|].
  rewrite imap_fmap.
  assert (Hgen : ∀ k, (λ m, (cm_id m, cm_phrase m)) <$>
                        concat (imap (λ i, causal_matches (k + i)) contents) =
                      (λ m, (cm_id m, cm_phrase m)) <$>
                        concat (imap (λ i, causal_matches (k + i) ∘ lower) contents)).
  { induction contents as [|s contents IH]; intros k; [reflexivity|].
    rewrite !imap_cons. cbn [concat]. rewrite !fmap_app. f_equal.
    - unfold compose, causal_matches. rewrite lower_idemp, <- !list_fmap_compose.
      reflexivity.
    - specialize (IH (S k)).
      rewrite (imap_ext _ (λ i, causal_matches (S k + i)) contents),
              (imap_ext (_ ∘ S) (λ i, causal_matches (S k + i) ∘ lower) contents); [done| |].
      + intros i x _. simpl. by rewrite Nat.add_succ_r.
      + intros i x _. simpl. by rewrite Nat.add_succ_r. }
  exact (Hgen 0).
Qed.

(** X5: both detectors work content by content: the result on a list of
    contents followed by more contents starts with the result on the first
    list, and the entries that follow carry the later positions. *)
Theorem detectors_extend_on_append (contents more : list string) :
  ∃ c1 c2 h1 h2,
    detect_causal_relationships (PyStr <$> contents) = Ok c1 ∧
    detect_causal_relationships (PyStr <$> (contents ++ more)) = Ok (c1 ++ c2) ∧
    detect_hierarchical_relationships (PyStr <$> contents) = Ok h1 ∧
    detect_hierarchical_relationships (PyStr <$> (contents ++ more)) = Ok (h1 ++ h2) ∧
    (∀ m, m ∈ c2 → ∃ idx, length contents ≤ idx ∧ cm_id m = str (PyInt (Z.of_nat idx))) ∧
    (∀ m, m ∈ h2 → ∃ idx, length contents ≤ idx ∧ hm_id m = str (PyInt (Z.of_nat idx))).
Proof.
  exists (concat (imap causal_matches contents)),
         (concat (imap (λ i, causal_matches (length contents + i)) more)),
         (concat (imap hierarchical_matches contents)),
         (concat (imap (λ i, hierarchical_matches (length contents + i)) more)).
  rewrite !detect_causal_strings, !detect_hierarchical_strings, !imap_app, !concat_app.
  do 4 (split; [reflexivity|]). split.
  - intros m (l & Hm & Hl)%elem_of_concat.
    apply elem_of_lookup_imap in Hl as (i & s & -> & _).
    unfold causal_matches in Hm. apply list_elem_of_fmap in Hm as (p & -> & _).
    exists (length contents + i). split; [lia | reflexivity].
  - intros m (l & Hm & Hl)%elem_of_concat.
    apply elem_of_lookup_imap in Hl as (i & s & -> & _).
    apply hierarchical_matches_elem in Hm as ->.
    exists (length contents + i). split; [lia | reflexivity].
Qed.



(** ** More on the loops *)


Lemma map_result_transfer {A B} (R : B → B → Prop) (f g : A → result B)
    (xs : list A) (ys : list B) :
  (∀ x y, x ∈ xs → f x = Ok y → ∃ y', g x = Ok y' ∧ R y' y) →
  map_result f xs = Ok ys →
  ∃ ys', map_result g xs = Ok ys' ∧ Forall2 R ys' ys.
Proof.
  revert ys. induction xs as [|x xs IH]; intros ys Hfg; simpl.
  - intros [= <-]. exists []. split; [reflexivity | constructor].
  - intros (y & Hy & (ys0 & Hys & [= <-])%bind_Ok)%bind_Ok.
    destruct (Hfg x y) as (y' & -> & Hr); [left | done |].
    destruct (IH ys0) as (ys' & -> & Hall); [|done|].
    { intros x0 y0 Hx0. apply Hfg. by right. }
    exists (y' :: ys'). split; [reflexivity | by constructor].
Qed.



Lemma length_pairs_from (k m n : nat) :
  n = k + m →
  2 * length (seq k m ≫= λ i, pair i <$> range (i + 1) n) = m * (m - 1).
Proof.
  revert k. induction m as [|m IH]; intros k Hn; [reflexivity|].
  cbn [seq]. rewrite bind_cons, length_app, length_fmap. unfold range at 1.
  rewrite length_seq. specialize (IH (S k) ltac:(lia)).
  replace (n - (k + 1)) with m by lia. nia.
Qed.

Lemma length_index_pairs (n : nat) : 2 * length (index_pairs n) = n * (n - 1).
Proof.
  unfold index_pairs. replace (range 0 n) with (seq 0 n)
    by (unfold range; f_equal; lia).
  by apply length_pairs_from.
Qed.

(** X7: the nested loops over [i] in [range(n)] and [j] in [range(i + 1, n)]
    visit exactly the pairs with [i < j < n], each once, which are
    [n (n - 1) / 2] pairs. *)
Theorem pair_loops_visit_each_pair_once (n : nat) :
  ∃ visited,
    for_each_pair n (λ i j acc, Ok (acc ++ [(i, j)])) [] = Ok visited ∧
    NoDup visited ∧
    (∀ i j, (i, j) ∈ visited ↔ i < j < n) ∧
    2 * length visited = n * (n - 1).
Proof.
  exists (index_pairs n). split; [|split; [apply NoDup_index_pairs|split]].
  - rewrite (for_each_pair_emit (λ i j, Ok [(i, j)])) by done.
    rewrite (map_result_pure (λ p : nat * nat, [(p.1, p.2)])).
    cbn [mbind result_bind app]. f_equal.
    induction (index_pairs n) as [|[i j] l IH]; [reflexivity|].
    rewrite fmap_cons. cbn [concat fst snd app]. by rewrite IH.
  - apply elem_of_index_pairs.
  - apply length_index_pairs.
Qed.

(** ** When the engine returns and what it raises *)

Section EngineMore.
Context {collab : Collaborators}.

Implicit Types (nodes valid_nodes : list (gmap string pyval)).
Implicit Types (order : set_listing) (threshold keyword_threshold : num).








(** X10: the engine returns only when the content of every kept node is a
    string: a truthy content of another type is not dropped by the filter
    and makes the run fail. *)
Theorem engine_requires_string_contents order nodes threshold keyword_threshold
    sp kp cp hp :
  vectorize_and_find_similar order nodes threshold keyword_threshold =
    Ok (sp, kp, cp, hp) →
  ∀ node, node ∈ nodes → is_valid node → is_str (dict_get node "content").
Proof.
  intros (embs & M & kw & sps & kps & _ & _ & Hc & _)%vectorize_Ok node Hn Hv.
  apply detect_causal_Ok_strings in Hc.
  apply (proj1 (Forall_forall _ _) Hc). apply list_elem_of_fmap. exists node.
  split; [reflexivity|]. unfold filter_nodes. by apply list_elem_of_filter.
Qed.

(** X11: with [n] kept nodes there are at most [n (n - 1) / 2] similarity
    pairs and as many keyword pairs, and [n] is at most the number of input
    nodes. *)
Theorem pair_list_sizes order nodes threshold keyword_threshold sp kp cp hp :
  vectorize_and_find_similar order nodes threshold keyword_threshold =
    Ok (sp, kp, cp, hp) →
  let n := length (filter_nodes nodes) in
  2 * length sp ≤ n * (n - 1) ∧ 2 * length kp ≤ n * (n - 1) ∧ n ≤ length nodes.
Proof.
  intros Hrun n.
  destruct (similar_pairs_selection _ _ _ _ _ _ _ _ Hrun) as (? & ps & _ & Hsub & Hall).
  destruct (keyword_pairs_selection _ _ _ _ _ _ _ _ Hrun) as (? & ? & qs & _ & Hsub' & Hall' & _).
  apply Forall2_length in Hall, Hall'. apply sublist_length in Hsub, Hsub'.
  pose proof (length_index_pairs n). fold n in Hsub, Hsub'.
  split; [lia|]. split; [lia|]. apply length_filter.
Qed.

(** X12: every keyword pair carries at least one keyword, and every keyword
    is a term of the vocabulary that the vectorizer returned. *)
Theorem keyword_pairs_well_formed order nodes threshold keyword_threshold sp kp cp hp :
  vectorize_and_find_similar order nodes threshold keyword_threshold =
    Ok (sp, kp, cp, hp) →
  ∃ tfidf_matrix keywords,
    fit_transform ((λ node, dict_get node "content") <$> filter_nodes nodes) =
      Ok (tfidf_matrix, keywords) ∧
    ∀ p, p ∈ kp → kp_keywords p ≠ [] ∧ ∀ term, term ∈ kp_keywords p → term ∈ keywords.
Proof.
  intros (M & kw & ps & Hf & _ & Hall & _)%keyword_pairs_selection.
  exists M, kw. split; [done|]. intros p (k & Hk)%list_elem_of_lookup.
  destruct (Forall2_lookup_r _ _ _ _ _ Hall Hk) as ([i j] & _ & Hemit).
  apply keyword_emit_one in Hemit as (S & HS & Hne & _ & _ & Hkw). rewrite Hkw. split.
  - intros Hnil. apply Hne. apply set_eq. intros t.
    rewrite <- elem_of_elements, <- (listing_perm order S), Hnil. set_solver.
  - intros term Hterm. rewrite (listing_perm order S), elem_of_elements in Hterm.
    apply (keyword_set_spec _ _ _ _ _ _ HS) in Hterm
      as (k' & ? & ? & ? & ? & _ & _ & _ & _ & _ & _ & _ & _ & Ht & _).
    by eapply list_elem_of_lookup_2.
Qed.

Lemma falsy_field (field : option pyval) :
  truthy (default PyNone field) = false ↔ falsy_or_missing field.
Proof.
  unfold falsy_or_missing. destruct field as [[|[]|z|s]|]; simpl.
  - split; [tauto | done].
  - split; [discriminate | intros [?|[?|[?|[?|?]]]]; congruence].
  - split; [tauto | done].
  - rewrite negb_false_iff, Z.eqb_eq. split; [intros ->; tauto|].
    intros [?|[?|[?|[?|?]]]]; congruence.
  - rewrite negb_false_iff, String.eqb_eq. split; [intros ->; tauto|].
    intros [?|[?|[?|[?|?]]]]; congruence.
  - split; [tauto | done].
Qed.

(** X13: a node is dropped exactly when its content or its id is missing,
    [None], [False], [0] or the empty string, and a dropped node changes
    nothing: the engine on a list with such a node anywhere in it is the
    engine on the list without it. *)
Theorem invalid_nodes_are_ignored (node : gmap string pyval) :
  (¬ is_valid node ↔
     falsy_or_missing (node !! "content") ∨ falsy_or_missing (node !! "id")) ∧
  (¬ is_valid node →
   ∀ order before after threshold keyword_threshold,
     vectorize_and_find_similar order (before ++ node :: after)
       threshold keyword_threshold =
     vectorize_and_find_similar order (before ++ after) threshold keyword_threshold).
Proof.
  split.
  - unfold is_valid, dict_get. rewrite <- !falsy_field.
    destruct (truthy (default PyNone (node !! "content"))),
             (truthy (default PyNone (node !! "id"))); simpl; intuition congruence.
  - intros Hinv order before after threshold keyword_threshold.
    assert (Hf : filter_nodes (before ++ node :: after) = filter_nodes (before ++ after)).
    { unfold filter_nodes. rewrite !filter_app. f_equal. by rewrite filter_cons_False. }
    unfold vectorize_and_find_similar. by rewrite Hf.
Qed.

Lemma similar_emit_nil nodes (embeddings : list embedding) threshold i j :
  similar_emit (filter_nodes nodes) embeddings threshold i j = Ok [] →
  ∃ ei ej sim, embeddings !! i = Some ei ∧ embeddings !! j = Some ej ∧
    cosine_similarity ei ej = Ok sim ∧ gt sim threshold = false.
Proof.
  unfold similar_emit.
  intros (ei & Hi%getitem_Ok & (ej & Hj%getitem_Ok & (sim & Hs & Hr)%bind_Ok)%bind_Ok)%bind_Ok.
  destruct (gt sim threshold) eqn:Hgt; [|by exists ei, ej, sim].
  apply bind_Ok in Hr as (? & _ & (? & _ & [=])%bind_Ok).
Qed.

(** X14: the engine computes the similarity of every index pair [i < j] of
    the kept nodes, and the pair has an entry in [similar_pairs] exactly
    when that similarity exceeds the threshold; the entry carries this
    similarity. *)
Theorem similar_pair_iff_above_threshold order nodes threshold keyword_threshold
    sp kp cp hp :
  vectorize_and_find_similar order nodes threshold keyword_threshold =
    Ok (sp, kp, cp, hp) →
  ∃ embeddings ps,
    encode ((λ node, dict_get node "content") <$> filter_nodes nodes) = Ok embeddings ∧
    ps `sublist_of` index_pairs (length (filter_nodes nodes)) ∧
    Forall2 (λ p e, ∃ ei ej, embeddings !! p.1 = Some ei ∧ embeddings !! p.2 = Some ej ∧
                      cosine_similarity ei ej = Ok (sp_similarity e)) ps sp ∧
    ∀ i j, i < j < length (filter_nodes nodes) →
      ∃ ei ej sim, embeddings !! i = Some ei ∧ embeddings !! j = Some ej ∧
        cosine_similarity ei ej = Ok sim ∧
        ((i, j) ∈ ps ↔ gt sim threshold = true).
Proof.
  intros (embeddings & M & kw & sps & kps & He & _ & _ & _ & Hs & -> & _)%vectorize_Ok.
  destruct (select_singletons _ _ _ Hs) as (ps & Hsub & Hall & Hin).
  { intros [i j] ys. apply similar_emit_length. }
  exists embeddings, ps. do 2 (split; [done|]). split.
  - eapply Forall2_impl; [exact Hall|]. intros [i j] e Hemit.
    apply similar_emit_one in Hemit as (ei & ej & ? & ? & ? & _). by exists ei, ej.
  - intros i j Hij%elem_of_index_pairs.
    destruct (map_result_total _ _ _ _ Hs Hij) as (ys & Hys). cbn [fst snd] in Hys.
    pose proof (similar_emit_length _ _ _ _ _ _ Hys) as Hlen.
    destruct ys as [|e [|]]; simpl in Hlen; try lia.
    + pose proof Hys as (ei & ej & sim & Hi & Hj & Hcos & Hgt)%similar_emit_nil.
      exists ei, ej, sim. do 3 (split; [done|]). rewrite Hgt. split; [|discriminate].
      intros (k & Hk)%list_elem_of_lookup.
      destruct (Forall2_lookup_l _ _ _ _ _ Hall Hk) as (e & _ & Hemit).
      cbn [fst snd] in Hemit. congruence.
    + pose proof Hys as (ei & ej & Hi & Hj & Hcos & Hgt & _)%similar_emit_one.
      exists ei, ej, (sp_similarity e). do 3 (split; [done|]). rewrite Hgt.
      split; [done|]. intros _. by eapply Hin.
Qed.




Lemma keyword_step_stricter (tfidf_matrix : list (list num)) keywords
    keyword_threshold keyword_threshold' i j k (acc acc' a1 : gset string) :
  (∀ x, gt x keyword_threshold' = true → gt x keyword_threshold = true) →
  acc' ⊆ acc →
  keyword_step tfidf_matrix keywords keyword_threshold i j k acc = Ok a1 →
  ∃ a1', keyword_step tfidf_matrix keywords keyword_threshold' i j k acc' = Ok a1' ∧
         a1' ⊆ a1.
Proof.
  intros Hmono Hacc Hstep.
  assert (Hgrow : acc ⊆ a1).
  { intros t Ht. apply (keyword_step_spec _ _ _ _ _ _ _ _ Hstep). by left. }
  revert Hstep. unfold keyword_step.
  intros (wi & Hwi & Hr)%bind_Ok. rewrite Hwi. cbn [mbind result_bind].
  destruct (gt wi keyword_threshold') eqn:Hgi'; [|exists acc'; split; [done | set_solver]].
  rewrite (Hmono _ Hgi') in Hr.
  apply bind_Ok in Hr as (wj & Hwj & Hr). rewrite Hwj. cbn [mbind result_bind].
  destruct (gt wj keyword_threshold') eqn:Hgj'; [|exists acc'; split; [done | set_solver]].
  rewrite (Hmono _ Hgj') in Hr.
  apply bind_Ok in Hr as (t & Ht & Hr). rewrite Ht. cbn [mbind result_bind].
  destruct (bool_decide (t ∈ stop_words)); injection Hr as Hr; subst a1.
  - exists acc'. split; [done | set_solver].
  - exists ({[t]} ∪ acc'). split; [done | by apply union_mono_l].
Qed.

Lemma keyword_steps_stricter (tfidf_matrix : list (list num)) keywords
    keyword_threshold keyword_threshold' i j (ks : list nat) (acc acc' S : gset string) :
  (∀ x, gt x keyword_threshold' = true → gt x keyword_threshold = true) →
  acc' ⊆ acc →
  for_each ks (keyword_step tfidf_matrix keywords keyword_threshold i j) acc = Ok S →
  ∃ S', for_each ks (keyword_step tfidf_matrix keywords keyword_threshold' i j) acc'
          = Ok S' ∧ S' ⊆ S.
Proof.
  intros Hmono. revert acc acc'. induction ks as [|k ks IH]; intros acc acc' Hacc; simpl.
  - intros [= <-]. by exists acc'.
  - intros (a1 & Hstep & Hrest)%bind_Ok.
    destruct (keyword_step_stricter _ _ _ _ _ _ _ _ _ _ Hmono Hacc Hstep) as (a1' & -> & Ha1).
    cbn [mbind result_bind]. by eapply IH.
Qed.

Lemma keyword_emit_stricter order valid_nodes (tfidf_matrix : list (list num)) keywords
    keyword_threshold keyword_threshold' i j ys :
  (∀ x, gt x keyword_threshold' = true → gt x keyword_threshold = true) →
  keyword_emit order valid_nodes tfidf_matrix keywords keyword_threshold i j = Ok ys →
  ∃ ys', keyword_emit order valid_nodes tfidf_matrix keywords keyword_threshold' i j
           = Ok ys' ∧
    (ys' = [] ∨
     ∃ e e', ys = [e] ∧ ys' = [e'] ∧
       kp_start_id e' = kp_start_id e ∧ kp_end_id e' = kp_end_id e ∧
       ∀ term, term ∈ kp_keywords e' → term ∈ kp_keywords e).
Proof.
  intros Hmono. unfold keyword_emit, keyword_set.
  intros (S & (ri & Hi & (rj & Hj & Hloop)%bind_Ok)%bind_Ok & Hr)%bind_Ok.
  rewrite Hi, Hj. cbn [mbind result_bind].
  destruct (keyword_steps_stricter _ _ _ _ _ _ _ _ _ _ Hmono (reflexivity ∅) Hloop)
    as (S' & -> & HS). cbn [mbind result_bind].
  destruct (bool_decide (S' ≠ ∅)) eqn:Hne'; [|exists []; split; [done | by left]].
  apply bool_decide_eq_true in Hne'.
  rewrite bool_decide_eq_true_2 in Hr by set_solver.
  apply bind_Ok in Hr as (a & Ha & (b & Hb & [= <-])%bind_Ok).
  rewrite Ha, Hb. cbn [mbind result_bind]. eexists. split; [reflexivity|].
  right. eexists _, _. do 4 (split; [reflexivity|]). simpl. intros term.
  rewrite !listing_perm, !elem_of_elements. apply HS.
Qed.

(** X16: a keyword threshold that is at least as strict never adds
    anything: the run still returns, with the same similarity pairs, causal
    matches and hierarchical matches, and its keyword pairs are, in order,
    keyword pairs of the first run with the same ids and with keywords among
    those of the first run. *)
Theorem keyword_threshold_stricter order nodes threshold keyword_threshold
    keyword_threshold' sp kp cp hp :
  (∀ x, gt x keyword_threshold' = true → gt x keyword_threshold = true) →
  vectorize_and_find_similar order nodes threshold keyword_threshold =
    Ok (sp, kp, cp, hp) →
  ∃ kp' kept,
    vectorize_and_find_similar order nodes threshold keyword_threshold' =
      Ok (sp, kp', cp, hp) ∧
    kept `sublist_of` kp ∧
    Forall2 (λ e' e, kp_start_id e' = kp_start_id e ∧ kp_end_id e' = kp_end_id e ∧
                     ∀ term, term ∈ kp_keywords e' → term ∈ kp_keywords e) kp' kept.
Proof.
  intros Hmono
    (embeddings & M & kw & sps & kps & He & Hf & Hc & Hh & Hs & -> & Hk & ->)%vectorize_Ok.
  destruct (map_result_transfer
              (λ ys' ys, ys' = [] ∨
                 ∃ e e', ys = [e] ∧ ys' = [e'] ∧
                   kp_start_id e' = kp_start_id e ∧ kp_end_id e' = kp_end_id e ∧
                   ∀ term, term ∈ kp_keywords e' → term ∈ kp_keywords e)
              (λ p, keyword_emit order (filter_nodes nodes) M kw keyword_threshold p.1 p.2)
              (λ p, keyword_emit order (filter_nodes nodes) M kw keyword_threshold' p.1 p.2)
              _ _ ltac:(intros [i j] ys _; by apply keyword_emit_stricter) Hk)
    as (kps' & Hk' & Hrel).
  assert (Hsel : ∃ kept, kept `sublist_of` concat kps ∧
            Forall2 (λ e' e, kp_start_id e' = kp_start_id e ∧ kp_end_id e' = kp_end_id e ∧
                       ∀ term, term ∈ kp_keywords e' → term ∈ kp_keywords e)
              (concat kps') kept).
  { clear Hk Hk'. induction Hrel as [|ys' ys kps' kps Hys _ (kept & Hsub & Hall)]; simpl.
    - exists []. split; constructor.
    - destruct Hys as [->|(e & e' & -> & -> & Hids)].
      + exists kept. split; [by apply sublist_inserts_l | done].
      + exists (e :: kept). split; [by apply sublist_skip | by constructor]. }
  destruct Hsel as (kept & Hsub & Hall).
  exists (concat kps'), kept. split; [|done].
  apply vectorize_Ok. by exists embeddings, M, kw, sps, kps'.
Qed.

End EngineMore.

(** ** The order of the entries *)

Lemma StronglySorted_seq_lt (a b : nat) : StronglySorted lt (seq a b).
Proof.
  revert a. induction b as [|b IH]; intros a; simpl; constructor; [apply IH|].
  apply Forall_forall. intros x Hx%elem_of_seq. lia.
Qed.

Lemma StronglySorted_pairs_from (k m n : nat) :
  StronglySorted pair_before (seq k m ≫= λ i, pair i <$> range (i + 1) n).
Proof.
  revert k. induction m as [|m IH]; intros k; [constructor|].
  cbn [seq]. rewrite bind_cons. apply StronglySorted_app_2.
  - intros p q (j & -> & _)%list_elem_of_fmap (i & Hq & Hi)%list_elem_of_bind.
    apply list_elem_of_fmap in Hq as (j' & -> & _). apply elem_of_seq in Hi.
    left. simpl. lia.
  - apply (StronglySorted_fmap _ lt); [|apply StronglySorted_seq_lt].
    intros x y Hxy. right. simpl. lia.
  - apply IH.
Qed.

Lemma StronglySorted_index_pairs (n : nat) : StronglySorted pair_before (index_pairs n).
Proof. apply StronglySorted_pairs_from. Qed.

Lemma StronglySorted_sublist {A} (R : relation A) (l1 l2 : list A) :
  l1 `sublist_of` l2 → StronglySorted R l2 → StronglySorted R l1.
Proof.
  induction 1 as [|x l1 l2 Hsub IH|x l1 l2 Hsub IH]; intros Hs; [done| |].
  - apply StronglySorted_cons in Hs as [Hall Hs]. constructor; [by apply IH|].
    apply Forall_forall. intros y Hy. apply (proj1 (Forall_forall _ _) Hall).
    by eapply elem_of_sublist.
  - apply StronglySorted_cons in Hs as [_ Hs]. by apply IH.
Qed.

Lemma filter_all {A} (P : A → Prop) `{∀ x, Decision (P x)} (l : list A) :
  (∀ x, x ∈ l → P x) → filter P l = l.
Proof.
  induction l as [|x l IH]; intros Hl; [reflexivity|].
  rewrite filter_cons_True by (apply Hl; left). f_equal. apply IH.
  intros y Hy. apply Hl. by right.
Qed.

(** X17: the entries of the causal detector for one position list their
    phrases in the order of the phrase list. *)
Theorem causal_matches_follow_phrase_order (contents : list string) :
  ∃ out, detect_causal_relationships (PyStr <$> contents) = Ok out ∧
    ∀ idx,
      cm_phrase <$> filter (λ m, cm_id m = str (PyInt (Z.of_nat idx))) out
        `sublist_of` causal_phrases.
Proof.
  exists (concat (imap causal_matches contents)).
  split; [apply detect_causal_strings|]. intros idx.
  rewrite filter_concat, fmap_imap.
  destruct (contents !! idx) as [content|] eqn:Hidx.
  - rewrite (concat_imap_single _ contents idx content Hidx).
    + unfold compose. rewrite filter_all.
      * unfold causal_matches. rewrite <- list_fmap_compose.
        assert (Hid : ∀ l : list string,
                  (cm_phrase ∘ (λ phrase, {| cm_id := str (PyInt (Z.of_nat idx));
                                            cm_phrase := phrase;
                                            cm_context := PyStr content |})) <$> l = l).
        { induction l as [|p l IH]; [reflexivity|]. rewrite fmap_cons. by rewrite IH. }
        rewrite Hid. apply sublist_filter.
      * intros m Hm. unfold causal_matches in Hm.
        by apply list_elem_of_fmap in Hm as (p & -> & _).
    + intros i s Hne _. unfold compose. by apply causal_matches_filter_id.
  - rewrite concat_imap_nil; [apply sublist_nil_l|].
    intros i s Hs. unfold compose. apply causal_matches_filter_id. congruence.
Qed.

Section EntryOrder.
Context {collab : Collaborators}.

(** X18: the entries of [similar_pairs] and of [keyword_pairs] follow the
    order in which the loops visit the index pairs: increasing [i], and
    increasing [j] for equal [i]. *)
Theorem pairs_in_enumeration_order (order : set_listing)
    (nodes : list (gmap string pyval)) (threshold keyword_threshold : num)
    sp kp cp hp :
  vectorize_and_find_similar order nodes threshold keyword_threshold =
    Ok (sp, kp, cp, hp) →
  ∃ ps qs,
    StronglySorted pair_before ps ∧
    Forall2 (λ p e, p.1 < p.2 < length (filter_nodes nodes) ∧
                    rendered_id (filter_nodes nodes) p.1 (sp_start_id e) ∧
                    rendered_id (filter_nodes nodes) p.2 (sp_end_id e)) ps sp ∧
    StronglySorted pair_before qs ∧
    Forall2 (λ p e, p.1 < p.2 < length (filter_nodes nodes) ∧
                    rendered_id (filter_nodes nodes) p.1 (kp_start_id e) ∧
                    rendered_id (filter_nodes nodes) p.2 (kp_end_id e)) qs kp.
Proof.
  intros Hrun.
  destruct (similar_pairs_selection _ _ _ _ _ _ _ _ Hrun) as (? & ps & _ & Hsub & Hall).
  destruct (keyword_pairs_selection _ _ _ _ _ _ _ _ Hrun)
    as (? & ? & qs & _ & Hsub' & Hall' & _).
  exists ps, qs. split; [|split; [|split]].
  - eapply StronglySorted_sublist; [exact Hsub | apply StronglySorted_index_pairs].
  - apply Forall2_same_length_lookup. split; [by eapply Forall2_length|].
    intros k [i j] e Hp He.
    pose proof (Forall2_lookup_lr _ _ _ _ _ _ Hall Hp He) as Hemit.
    apply similar_emit_one in Hemit as (? & ? & _ & _ & _ & _ & ? & ?).
    split; [|done]. apply elem_of_index_pairs. eapply elem_of_sublist; [|exact Hsub].
    by eapply list_elem_of_lookup_2.
  - eapply StronglySorted_sublist; [exact Hsub' | apply StronglySorted_index_pairs].
  - apply Forall2_same_length_lookup. split; [by eapply Forall2_length|].
    intros k [i j] e Hp He.
    pose proof (Forall2_lookup_lr _ _ _ _ _ _ Hall' Hp He) as Hemit.
    apply keyword_emit_one in Hemit as (? & _ & _ & ? & ? & _).
    split; [|done]. apply elem_of_index_pairs. eapply elem_of_sublist; [|exact Hsub'].
    by eapply list_elem_of_lookup_2.
Qed.

End EntryOrder.

(** ** The further theorems at concrete inputs *)




Lemma engine_requires_string_contents_witness :
  vectorize_and_find_similar canonical_listing sales_nodes 80%Z 20%Z = Ok sales_output ∧
  ∀ node, node ∈ sales_nodes → is_valid node → is_str (dict_get node "content").
Proof.
  split; [vm_compute; reflexivity|].
  apply (engine_requires_string_contents (collab := toy) canonical_listing sales_nodes
           80%Z 20%Z sales_output.1.1.1 sales_output.1.1.2 sales_output.1.2 sales_output.2).
  vm_compute; reflexivity.
Defined.

Lemma pair_list_sizes_witness :
  vectorize_and_find_similar canonical_listing sales_nodes 80%Z 20%Z = Ok sales_output ∧
  2 * length sales_output.1.1.1 ≤
    length (filter_nodes sales_nodes) * (length (filter_nodes sales_nodes) - 1) ∧
  2 * length sales_output.1.1.2 ≤
    length (filter_nodes sales_nodes) * (length (filter_nodes sales_nodes) - 1) ∧
  length (filter_nodes sales_nodes) ≤ length sales_nodes.
Proof.
  split; [vm_compute; reflexivity|].
  apply (pair_list_sizes (collab := toy) canonical_listing sales_nodes 80%Z 20%Z
           sales_output.1.1.1 sales_output.1.1.2 sales_output.1.2 sales_output.2).
  vm_compute; reflexivity.
Defined.

Lemma keyword_pairs_well_formed_witness :
  vectorize_and_find_similar canonical_listing sales_nodes 80%Z 20%Z = Ok sales_output ∧
  ∃ tfidf_matrix keywords,
    fit_transform ((λ node, dict_get node "content") <$> filter_nodes sales_nodes) =
      Ok (tfidf_matrix, keywords) ∧
    ∀ p, p ∈ sales_output.1.1.2 →
      kp_keywords p ≠ [] ∧ ∀ term, term ∈ kp_keywords p → term ∈ keywords.
Proof.
  split; [vm_compute; reflexivity|].
  apply (keyword_pairs_well_formed (collab := toy) canonical_listing sales_nodes 80%Z 20%Z
           sales_output.1.1.1 sales_output.1.1.2 sales_output.1.2 sales_output.2).
  vm_compute; reflexivity.
Defined.

Lemma similar_pair_iff_above_threshold_witness :
  vectorize_and_find_similar canonical_listing sales_nodes 80%Z 20%Z = Ok sales_output ∧
  ∃ embeddings ps,
    encode ((λ node, dict_get node "content") <$> filter_nodes sales_nodes) = Ok embeddings ∧
    ps `sublist_of` index_pairs (length (filter_nodes sales_nodes)) ∧
    Forall2 (λ p e, ∃ ei ej, embeddings !! p.1 = Some ei ∧ embeddings !! p.2 = Some ej ∧
                      cosine_similarity ei ej = Ok (sp_similarity e))
      ps sales_output.1.1.1 ∧
    ∀ i j, i < j < length (filter_nodes sales_nodes) →
      ∃ ei ej sim, embeddings !! i = Some ei ∧ embeddings !! j = Some ej ∧
        cosine_similarity ei ej = Ok sim ∧
        ((i, j) ∈ ps ↔ gt sim 80%Z = true).
Proof.
  split; [vm_compute; reflexivity|].
  apply (similar_pair_iff_above_threshold (collab := toy) canonical_listing sales_nodes
           80%Z 20%Z sales_output.1.1.1 sales_output.1.1.2 sales_output.1.2 sales_output.2).
  vm_compute; reflexivity.
Defined.


Lemma keyword_threshold_stricter_witness :
  (∀ x : Z, gt x 60%Z = true → gt x 20%Z = true) ∧
  vectorize_and_find_similar canonical_listing sales_nodes 80%Z 20%Z = Ok sales_output ∧
  ∃ kp' kept,
    vectorize_and_find_similar canonical_listing sales_nodes 80%Z 60%Z =
      Ok (sales_output.1.1.1, kp', sales_output.1.2, sales_output.2) ∧
    kept `sublist_of` sales_output.1.1.2 ∧
    Forall2 (λ e' e, kp_start_id e' = kp_start_id e ∧ kp_end_id e' = kp_end_id e ∧
                     ∀ term, term ∈ kp_keywords e' → term ∈ kp_keywords e) kp' kept.
Proof.
  assert (Hmono : ∀ x : Z, gt x 60%Z = true → gt x 20%Z = true).
  { intros x. simpl. rewrite !Z.gtb_ltb, !Z.ltb_lt. lia. }
  split; [exact Hmono|]. split; [vm_compute; reflexivity|].
  apply (keyword_threshold_stricter (collab := toy) canonical_listing sales_nodes
           80%Z 20%Z 60%Z _ _ _ _ Hmono).
  vm_compute; reflexivity.
Defined.

Lemma pairs_in_enumeration_order_witness :
  vectorize_and_find_similar canonical_listing sales_nodes 80%Z 20%Z = Ok sales_output ∧
  ∃ ps qs,
    StronglySorted pair_before ps ∧
    Forall2 (λ p e, p.1 < p.2 < length (filter_nodes sales_nodes) ∧
                    rendered_id (filter_nodes sales_nodes) p.1 (sp_start_id e) ∧
                    rendered_id (filter_nodes sales_nodes) p.2 (sp_end_id e))
      ps sales_output.1.1.1 ∧
    StronglySorted pair_before qs ∧
    Forall2 (λ p e, p.1 < p.2 < length (filter_nodes sales_nodes) ∧
                    rendered_id (filter_nodes sales_nodes) p.1 (kp_start_id e) ∧
                    rendered_id (filter_nodes sales_nodes) p.2 (kp_end_id e))
      qs sales_output.1.1.2.
Proof.
  split; [vm_compute; reflexivity|].
  apply (pairs_in_enumeration_order (collab := toy) canonical_listing sales_nodes
           80%Z 20%Z sales_output.1.1.1 sales_output.1.1.2 sales_output.1.2 sales_output.2).
  vm_compute; reflexivity.
Defined.
